(** * Exact rational numbers over 64-bit integers (rational.h / rational.cpp)

    A shallow embedding of the [rational] class: two [std::int64_t] fields,
    a private [simplify] and the public constructors and operators.  Objects
    live in a store, member functions are computations on that store which
    read and write the fields of [*this] statement by statement, so that a
    call whose two operands are the same object behaves as in the source.
    [value()] (floating point) and [operator<<] (stream output) are not part
    of this development. *)

From Stdlib Require Import ZArith QArith Qabs Znumtheory Lia String.
From Stdlib Require Import Ascii Decimal DecimalPos DecimalZ DecimalString.
From stdpp Require Import base gmap.

Local Open Scope Z_scope.

(** ** 64-bit signed integers

    [integer = std::int64_t].  A value is a [Z] in the range of the type;
    every arithmetic operator reduces its exact result modulo 2^64 into that
    range (two's complement).  The source checks no overflow anywhere. *)

Module Int64.

Definition INT64_MIN : Z := - 2 ^ 63.
Definition INT64_MAX : Z := 2 ^ 63 - 1.

Definition int64 (z : Z) : Prop := INT64_MIN <= z <= INT64_MAX.

Definition wrap (z : Z) : Z := (z + 2 ^ 63) mod 2 ^ 64 - 2 ^ 63.

Definition add64 (x y : Z) : Z := wrap (x + y).
Definition sub64 (x y : Z) : Z := wrap (x - y).
Definition mul64 (x y : Z) : Z := wrap (x * y).
Definition neg64 (x : Z) : Z := wrap (- x).

(** [std::abs] on a 64-bit integer. *)
Definition abs64 (x : Z) : Z := if x <? 0 then neg64 x else x.

(** [std::gcd]: the greatest common divisor of the absolute values,
    converted to the common type of the arguments. *)
Definition gcd64 (x y : Z) : Z := wrap (Z.gcd x y).

(** [x / y] on integers truncates toward zero and is reduced like every
    other result; there is no result when the divisor is zero. *)
Definition div64 (x y : Z) : option Z :=
  if y =? 0 then None else Some (wrap (Z.quot x y)).

End Int64.
Export Int64.

(** ** Objects, the store and the outcome of a call *)

Record rational : Type := mk_rational { num : Z; denom : Z }.

Abbreviation loc := nat.

Abbreviation heap := (gmap nat rational).

Inductive exn : Type :=
| invalid_argument (what : string).

(** A call returns a value, leaves by an exception, or stops at an integer
    division by zero, for which the language defines no behaviour (on the
    usual targets the processor raises a fault that ends the program).  Each
    outcome carries the store at that point. *)
Inductive outcome (A : Type) : Type :=
| Ret (a : A) (h : heap)
| Throw (e : exn) (h : heap)
| Fault (h : heap).
Arguments Ret {A} a h.
Arguments Throw {A} e h.
Arguments Fault {A} h.

Definition M (A : Type) : Type := heap -> outcome A.

Definition ret {A} (a : A) : M A := fun h => Ret a h.

Definition bind {A B} (m : M A) (k : A -> M B) : M B :=
  fun h =>
    match m h with
    | Ret a h' => k a h'
    | Throw e h' => Throw e h'
    | Fault h' => Fault h'
    end.

Definition throw {A} (e : exn) : M A := fun h => Throw e h.

Definition fault {A} : M A := fun h => Fault h.

Declare Scope cpp_scope.
Delimit Scope cpp_scope with cpp.
Notation "x <- m ;; k" := (bind m (fun x => k))
  (at level 100, m at next level, right associativity) : cpp_scope.
Notation "m ;;; k" := (bind m (fun _ => k))
  (at level 100, right associativity) : cpp_scope.
Local Open Scope cpp_scope.

(** Reading and writing the fields of the object at [p]; using a reference
    to no object has no defined behaviour. *)
Definition load (p : loc) : M rational :=
  fun h => match h !! p with Some r => Ret r h | None => Fault h end.

Definition get_num (p : loc) : M Z := r <- load p ;; ret (num r).
Definition get_denom (p : loc) : M Z := r <- load p ;; ret (denom r).

Definition set_num (p : loc) (v : Z) : M unit :=
  fun h =>
    match h !! p with
    | Some r => Ret tt (<[p := mk_rational v (denom r)]> h)
    | None => Fault h
    end.

Definition set_denom (p : loc) (v : Z) : M unit :=
  fun h =>
    match h !! p with
    | Some r => Ret tt (<[p := mk_rational (num r) v]> h)
    | None => Fault h
    end.

(** A new object (a local variable, a by-value parameter, a temporary) with
    the given initial fields, at a location not in use. *)
Definition alloc (r : rational) : M loc :=
  fun h => let p := fresh (dom h) in Ret p (<[p := r]> h).

Definition free (p : loc) : M unit := fun h => Ret tt (delete p h).

(** [m], and when an exception leaves it, [cleanup] before the exception
    goes on: the destruction of the objects of the scope being left. *)
Definition unwinding {A} (m : M A) (cleanup : M unit) : M A :=
  fun h =>
    match m h with
    | Ret a h' => Ret a h'
    | Throw e h' =>
        match cleanup h' with
        | Ret _ h'' => Throw e h''
        | Throw e' h'' => Throw e' h''
        | Fault h'' => Fault h''
        end
    | Fault h' => Fault h'
    end.

Definition divide (x y : Z) : M Z :=
  match div64 x y with Some q => ret q | None => fault end.

(** ** rational.cpp *)

(** [void rational::simplify()] *)
Definition simplify (this : loc) : M unit :=
  n <- get_num this ;; d <- get_denom this ;;
  let div := gcd64 n d in
  (n <- get_num this ;; q <- divide n div ;; set_num this q) ;;;
  (d <- get_denom this ;; q <- divide d div ;; set_denom this q) ;;;
  n <- get_num this ;; d <- get_denom this ;;
  if xorb (n <? 0) (d <? 0) then
    (n <- get_num this ;; set_num this (neg64 (abs64 n))) ;;;
    (d <- get_denom this ;; set_denom this (abs64 d))
  else if (n <? 0) && (d <? 0) then
    (n <- get_num this ;; set_num this (neg64 n)) ;;;
    (d <- get_denom this ;; set_denom this (neg64 d))
  else ret tt.

(** [rational::rational(integer value)] *)
Definition construct_integer (value : Z) : M loc :=
  alloc (mk_rational value 1).

(** [rational::rational(integer numerator, integer denominator)]: the
    member initialisers, then the body.  When the body throws, the object
    never comes into existence and its storage is given back. *)
Definition construct_num_denom (numerator denominator : Z) : M loc :=
  this <- alloc (mk_rational numerator denominator) ;;
  unwinding
    (d <- get_denom this ;;
     if d =? 0 then throw (invalid_argument "Denominator must be non-zero.")
     else simplify this)
    (free this) ;;;
  ret this.

(** [rational::rational(const rational& other)] *)
Definition construct_copy (other : loc) : M loc :=
  n <- get_num other ;; d <- get_denom other ;;
  alloc (mk_rational n d).

(** [rational& rational::operator=(const rational& other)] *)
Definition op_assign (this other : loc) : M loc :=
  (n <- get_num other ;; set_num this n) ;;;
  (d <- get_denom other ;; set_denom this d) ;;;
  ret this.

(** [integer rational::numerator() const], [denominator() const] *)
Definition numerator (this : loc) : M Z := get_num this.
Definition denominator (this : loc) : M Z := get_denom this.

(** [rational rational::operator+() const] *)
Definition op_positive (this : loc) : M loc :=
  n <- get_num this ;; d <- get_denom this ;;
  construct_num_denom (abs64 n) (abs64 d).

(** [rational rational::operator-() const] *)
Definition op_negative (this : loc) : M loc :=
  n <- get_num this ;; d <- get_denom this ;;
  construct_num_denom (neg64 n) d.

(** [rational& rational::operator+=(const rational& other)] *)
Definition op_add_assign (this other : loc) : M loc :=
  (n <- get_num this ;; od <- get_denom other ;;
   d <- get_denom this ;; on <- get_num other ;;
   set_num this (add64 (mul64 n od) (mul64 d on))) ;;;
  (d <- get_denom this ;; od <- get_denom other ;;
   set_denom this (mul64 d od)) ;;;
  simplify this ;;;
  ret this.

(** [rational& rational::operator-=(const rational& other)] *)
Definition op_subtract_assign (this other : loc) : M loc :=
  (n <- get_num this ;; od <- get_denom other ;;
   d <- get_denom this ;; on <- get_num other ;;
   set_num this (sub64 (mul64 n od) (mul64 d on))) ;;;
  (d <- get_denom this ;; od <- get_denom other ;;
   set_denom this (mul64 d od)) ;;;
  simplify this ;;;
  ret this.

(** [rational& rational::operator*=(const rational& other)] *)
Definition op_multiply_assign (this other : loc) : M loc :=
  (n <- get_num this ;; on <- get_num other ;;
   set_num this (mul64 n on)) ;;;
  (d <- get_denom this ;; od <- get_denom other ;;
   set_denom this (mul64 d od)) ;;;
  simplify this ;;;
  ret this.

(** [rational& rational::operator/=(const rational& other)] *)
Definition op_divide_assign (this other : loc) : M loc :=
  on <- get_num other ;;
  (if on =? 0 then throw (invalid_argument "Cannot divide by zero.")
   else ret tt) ;;;
  (n <- get_num this ;; od <- get_denom other ;;
   set_num this (mul64 n od)) ;;;
  (d <- get_denom this ;; on <- get_num other ;;
   set_denom this (mul64 d on)) ;;;
  simplify this ;;;
  ret this.

(** The binary operators take their left operand by value: [left] is a new
    object copied from the argument, the compound operator runs on it, and
    it is what the call returns.  An exception destroys it on the way out. *)
Definition binary (compound : loc -> loc -> M loc) (left_arg right : loc)
  : M loc :=
  left <- construct_copy left_arg ;;
  unwinding (compound left right) (free left) ;;;
  ret left.

(** [rational operator+(rational left, const rational& right)] and its
    three siblings *)
Definition op_add : loc -> loc -> M loc := binary op_add_assign.
Definition op_subtract : loc -> loc -> M loc := binary op_subtract_assign.
Definition op_multiply : loc -> loc -> M loc := binary op_multiply_assign.
Definition op_divide : loc -> loc -> M loc := binary op_divide_assign.

(** [rational& rational::operator++()] *)
Definition op_pre_increment (this : loc) : M loc :=
  (n <- get_num this ;; d <- get_denom this ;;
   set_num this (add64 n (abs64 d))) ;;;
  ret this.

(** [rational rational::operator++(int)] *)
Definition op_post_increment (this : loc) : M loc :=
  old <- construct_copy this ;;
  op_pre_increment this ;;;
  ret old.

(** [rational& rational::operator--()] *)
Definition op_pre_decrement (this : loc) : M loc :=
  (n <- get_num this ;; d <- get_denom this ;;
   set_num this (sub64 n (abs64 d))) ;;;
  ret this.

(** [rational rational::operator--(int)] *)
Definition op_post_decrement (this : loc) : M loc :=
  old <- construct_copy this ;;
  op_pre_decrement this ;;;
  ret old.

(** The comparison operators only read their two operands; they are
    functions of the field values. *)

(** [bool operator==(const rational& left, const rational& right)] *)
Definition op_equality (left right : rational) : bool :=
  let left_neg := xorb (num left <? 0) (denom left <? 0) in
  let right_neg := xorb (num right <? 0) (denom right <? 0) in
  if negb (Bool.eqb left_neg right_neg) then false
  else
    let left_crit := abs64 (mul64 (num left) (denom right)) in
    let right_crit := abs64 (mul64 (denom left) (num right)) in
    left_crit =? right_crit.

(** [bool operator!=(const rational& left, const rational& right)] *)
Definition op_inequality (left right : rational) : bool :=
  negb (op_equality left right).

(** [bool operator<(const rational& left, const rational& right)] *)
Definition op_less (left right : rational) : bool :=
  let left_neg := xorb (num left <? 0) (denom left <? 0) in
  let right_neg := xorb (num right <? 0) (denom right <? 0) in
  if negb (Bool.eqb left_neg right_neg) then left_neg
  else
    let left_crit := abs64 (mul64 (num left) (denom right)) in
    let right_crit := abs64 (mul64 (denom left) (num right)) in
    if left_neg then left_crit >? right_crit else left_crit <? right_crit.

(** [bool operator>(const rational& left, const rational& right)] *)
Definition op_greater (left right : rational) : bool :=
  op_less right left.

(** [bool operator<=(const rational& left, const rational& right)] *)
Definition op_less_equal (left right : rational) : bool :=
  negb (op_greater left right).

(** [bool operator>=(const rational& left, const rational& right)] *)
Definition op_greater_equal (left right : rational) : bool :=
  negb (op_less left right).

(** The same on two objects of the store. *)
Definition compare (rel : rational -> rational -> bool) (left right : loc)
  : M bool :=
  a <- load left ;; b <- load right ;; ret (rel a b).

(** ** Stream output *)




(** ** test.cpp: the two series of [main] *)

(** [x << n] on [int], 32 bits wide; the processor takes the shift count
    modulo 32 (the language defines the counts 0 to 31 only). *)
Definition shl_int (x n : Z) : Z :=
  (Z.shiftl x (n mod 32) + 2 ^ 31) mod 2 ^ 32 - 2 ^ 31.

(** [zeno += rational(1, 1 << base);] -- the temporary lives until the end
    of the statement. *)
Definition zeno_step (zeno : loc) (base : Z) : M unit :=
  term <- construct_num_denom 1 (shl_int 1 base) ;;
  op_add_assign zeno term ;;;
  free term.

(** [count] passes of the loop body, [++base] after each. *)
Fixpoint zeno_loop (zeno : loc) (base : Z) (count : nat) : M unit :=
  match count with
  | O => ret tt
  | S count' =>
      zeno_step zeno base ;;; zeno_loop zeno (add64 base 1) count'
  end.

(** [rational zeno(0); for (integer_t base = 1; base < limit; ++base) ...],
    then the fields of [zeno]; [limit] is 20 in [main]. *)
Definition zeno_paradox (limit : Z) : M rational :=
  zeno <- construct_integer 0 ;;
  zeno_loop zeno 1 (Z.to_nat (limit - 1)) ;;;
  load zeno.

(** [approx_e += rational(1, (fac *= denom));] with [fac] already
    multiplied. *)
Definition euler_step (approx_e : loc) (fac : Z) : M unit :=
  term <- construct_num_denom 1 fac ;;
  op_add_assign approx_e term ;;;
  free term.

(** [count] passes of the loop body on the loop variables [denom] and
    [fac], [++denom] after each. *)
Fixpoint euler_loop (approx_e : loc) (denom fac : Z) (count : nat) : M unit :=
  match count with
  | O => ret tt
  | S count' =>
      let fac' := mul64 fac denom in
      euler_step approx_e fac' ;;;
      euler_loop approx_e (add64 denom 1) fac' count'
  end.

(** [rational approx_e(1); for (integer_t denom = 1, fac = 1; denom < limit;
    ++denom) ...], then the fields of [approx_e]; [limit] is 12 in [main]. *)
Definition euler_constant (limit : Z) : M rational :=
  approx_e <- construct_integer 1 ;;
  euler_loop approx_e 1 1 (Z.to_nat (limit - 1)) ;;;
  load approx_e.

(** ** What the calls compute

    The result of each member function as a function of the field values,
    used to reason about the calls; the lemmas [*_run] below connect them to
    the code. *)

Definition simplified (r : rational) : option rational :=
  let div := gcd64 (num r) (denom r) in
  if div =? 0 then None
  else
    let n := wrap (Z.quot (num r) div) in
    let d := wrap (Z.quot (denom r) div) in
    Some (if xorb (n <? 0) (d <? 0) then mk_rational (neg64 (abs64 n)) (abs64 d)
          else if (n <? 0) && (d <? 0) then mk_rational (neg64 n) (neg64 d)
          else mk_rational n d).

Definition sum_fields (a b : rational) : rational :=
  mk_rational (add64 (mul64 (num a) (denom b)) (mul64 (denom a) (num b)))
              (mul64 (denom a) (denom b)).

Definition difference_fields (a b : rational) : rational :=
  mk_rational (sub64 (mul64 (num a) (denom b)) (mul64 (denom a) (num b)))
              (mul64 (denom a) (denom b)).

Definition product_fields (a b : rational) : rational :=
  mk_rational (mul64 (num a) (num b)) (mul64 (denom a) (denom b)).

Definition quotient_fields (a b : rational) : rational :=
  mk_rational (mul64 (num a) (denom b)) (mul64 (denom a) (num b)).

(** [a /= a]: the second statement reads the numerator the first one wrote. *)
Definition self_quotient_fields (a : rational) : rational :=
  let n := mul64 (num a) (denom a) in
  mk_rational n (mul64 (denom a) n).

(** The outcome of a statement sequence that ends in [simplify(); return
    *this;] once the fields of [*this] are [r]. *)
Definition finish (this : loc) (r : rational) (h : heap) : outcome loc :=
  match simplified r with
  | Some r' => Ret this (<[this := r']> h)
  | None => Fault (<[this := r]> h)
  end.

(** The store an outcome carries. *)
Definition store_of {A} (o : outcome A) : heap :=
  match o with Ret _ h | Throw _ h | Fault h => h end.

(** ** The class invariant and the value of an object *)

Definition in_range (r : rational) : Prop := int64 (num r) /\ int64 (denom r).

(** Positive denominator, lowest terms. *)
Definition normalized (r : rational) : Prop :=
  0 < denom r /\ Z.gcd (Z.abs (num r)) (denom r) = 1.

Definition valid (r : rational) : Prop := in_range r /\ normalized r.

(** The number an object with a positive denominator stands for. *)
Definition Qvalue (r : rational) : Q := num r # Z.to_pos (denom r).

(** Both [z] and [- z] are 64-bit values. *)
Definition signed_fits (z : Z) : Prop := int64 z /\ int64 (- z).

(** Every object of the store satisfies the class invariant. *)
Definition store_invariant (h : heap) : Prop :=
  forall p r, h !! p = Some r -> valid r.

(** ** The public operations that create or change an object *)

Inductive operation : Type :=
| Construct_integer (value : Z)
| Construct_num_denom (numerator denominator : Z)
| Construct_copy (other : loc)
| Assign (this other : loc)
| Positive (this : loc)
| Negative (this : loc)
| Add_assign (this other : loc)
| Add (left right : loc)
| Subtract_assign (this other : loc)
| Subtract (left right : loc)
| Multiply_assign (this other : loc)
| Multiply (left right : loc)
| Divide_assign (this other : loc)
| Divide (left right : loc)
| Pre_increment (this : loc)
| Post_increment (this : loc)
| Pre_decrement (this : loc)
| Post_decrement (this : loc).

Definition call (op : operation) : M loc :=
  match op with
  | Construct_integer value => construct_integer value
  | Construct_num_denom numerator denominator =>
      construct_num_denom numerator denominator
  | Construct_copy other => construct_copy other
  | Assign this other => op_assign this other
  | Positive this => op_positive this
  | Negative this => op_negative this
  | Add_assign this other => op_add_assign this other
  | Add x y => op_add x y
  | Subtract_assign this other => op_subtract_assign this other
  | Subtract x y => op_subtract x y
  | Multiply_assign this other => op_multiply_assign this other
  | Multiply x y => op_multiply x y
  | Divide_assign this other => op_divide_assign this other
  | Divide x y => op_divide x y
  | Pre_increment this => op_pre_increment this
  | Post_increment this => op_post_increment this
  | Pre_decrement this => op_pre_decrement this
  | Post_decrement this => op_post_decrement this
  end.

(** The operands exist, and the sizes stay within 64 bits where the
    invariant depends on it. *)
Definition operands (h : heap) (x y : loc) (P : rational -> rational -> Prop)
  : Prop :=
  exists a b, h !! x = Some a /\ h !! y = Some b /\ P a b.

Definition operand (h : heap) (x : loc) (P : rational -> Prop) : Prop :=
  exists a, h !! x = Some a /\ P a.

Definition within_bounds (op : operation) (h : heap) : Prop :=
  match op with
  | Construct_integer value => int64 value
  | Construct_num_denom n d =>
      int64 n /\ int64 d /\ d <> 0 /\ ~ (d = INT64_MIN /\ Z.odd n = true)
  | Construct_copy other => operand h other (fun _ => True)
  | Assign this other => operands h this other (fun _ _ => True)
  | Positive this | Negative this => operand h this (fun _ => True)
  | Add_assign x y | Add x y | Subtract_assign x y | Subtract x y
  | Multiply_assign x y | Multiply x y =>
      operands h x y (fun a b => int64 (denom a * denom b))
  | Divide_assign this other =>
      this <> other
      /\ operands h this other (fun a b =>
           num b <> 0 /\ signed_fits (denom a * num b))
  | Divide x y =>
      operands h x y (fun a b => num b <> 0 /\ signed_fits (denom a * num b))
  | Pre_increment this | Post_increment this =>
      operand h this (fun a => int64 (num a + denom a))
  | Pre_decrement this | Post_decrement this =>
      operand h this (fun a => int64 (num a - denom a))
  end.

(** The value a call returns. *)
Definition value_of {A} (o : outcome A) : option A :=
  match o with Ret a _ => Some a | _ => None end.

(** [rational(n1, d1) op rational(n2, d2) == rational(n3, d3)], as the test
    program evaluates it. *)
Definition binary_equals (op : loc -> loc -> M loc) (n1 d1 n2 d2 n3 d3 : Z)
  : M bool :=
  l <- construct_num_denom n1 d1 ;;
  r <- construct_num_denom n2 d2 ;;
  result <- op l r ;;
  expected <- construct_num_denom n3 d3 ;;
  compare op_equality result expected.

(** [rational(n1, d1) == rational(n2, d2)] *)
Definition equality_test (n1 d1 n2 d2 : Z) : M bool :=
  l <- construct_num_denom n1 d1 ;;
  r <- construct_num_denom n2 d2 ;;
  compare op_equality l r.

(** [rational r(n, d); auto old = r++;] (or [r--]), then the fields of
    [old] and of [r]. *)
Definition postfix_test (op : loc -> M loc) (n d : Z)
  : M (rational * rational) :=
  r <- construct_num_denom n d ;;
  old <- op r ;;
  old_fields <- load old ;;
  new_fields <- load r ;;
  ret (old_fields, new_fields).

(** ** Auxiliary notions of the statements *)

(** What the invariant theorem promises about the outcome of a call. *)
Definition establishes (o : outcome loc) : Prop :=
  exists p h',
    o = Ret p h' /\ store_invariant h'
    /\ exists n d,
         numerator p h' = Ret n h' /\ denominator p h' = Ret d h'
         /\ 0 < d /\ Z.gcd (Z.abs n) d = 1.

(** The two kinds of pair that [simplify] does not bring to the lowest
    terms of their quotient: the absolute value of a field is out of range. *)
Definition exceptional (n d : Z) : Prop :=
  (d = INT64_MIN /\ Z.odd n = true)
  \/ (n = INT64_MIN /\ d < 0 /\ Z.odd d = true).

(** The outcomes of a call, told apart. *)
Definition is_fault {A} (o : outcome A) : Prop :=
  match o with Fault _ => True | _ => False end.

Definition is_ret {A} (o : outcome A) : Prop :=
  match o with Ret _ _ => True | _ => False end.



(** The fields the loop leaves, when no call fails on the way. *)
Fixpoint euler_fields (a : rational) (denom fac : Z) (count : nat)
  : option rational :=
  match count with
  | O => Some a
  | S count' =>
      let fac' := mul64 fac denom in
      if fac' =? 0 then None
      else
        match simplified (mk_rational 1 fac') with
        | Some term =>
            match simplified (sum_fields a term) with
            | Some a' => euler_fields a' (add64 denom 1) fac' count'
            | None => None
            end
        | None => None
        end
  end.

(** n! *)
Fixpoint factorial (n : nat) : Z :=
  match n with
  | O => 1
  | S n' => Z.of_nat n * factorial n'
  end.

(** 1 + 1/1! + ... + 1/n! *)
Fixpoint partial_sum_e (n : nat) : Q :=
  match n with
  | O => 1
  | S n' => partial_sum_e n' + 1 / inject_Z (factorial n)
  end.

(** * Proofs *)

Ltac range := unfold int64, INT64_MIN, INT64_MAX in *.

Ltac unfold_cpp :=
  cbv beta iota zeta delta
    [bind ret throw fault unwinding free load get_num get_denom
     set_num set_denom divide div64].

Ltac lookups :=
  repeat (cbv beta iota zeta;
          first [ rewrite lookup_insert_eq
                | rewrite lookup_insert_ne by (done || congruence)
                | rewrite insert_insert_eq
                | match goal with
                  | H : ?h !! ?p = _ |- context [?h !! ?p] => rewrite H
                  end ]).

Lemma simplify_run (this : loc) (r : rational) (h : heap) :
  simplify this (<[this := r]> h)
  = match simplified r with
    | Some r' => Ret tt (<[this := r']> h)
    | None => Fault (<[this := r]> h)
    end.
Proof.
  unfold simplify, simplified. unfold_cpp. lookups.
  destruct r as [n d]; cbn [num denom].
  destruct (gcd64 n d =? 0) eqn:Hdiv; [reflexivity|].
  lookups.
  destruct (xorb _ _); [lookups; reflexivity|].
  destruct (_ && _); lookups; reflexivity.
Qed.

Ltac run :=
  unfold_cpp; lookups;
  repeat (rewrite simplify_run; unfold_cpp; lookups).

Lemma finish_run (this : loc) (r : rational) (h : heap) :
  (simplify this ;;; ret this) (<[this := r]> h) = finish this r h.
Proof. unfold finish. run. by destruct (simplified r). Qed.

Lemma op_add_assign_run (this other : loc) (a b : rational) (h : heap) :
  h !! this = Some a -> h !! other = Some b ->
  op_add_assign this other h = finish this (sum_fields a b) h.
Proof.
  intros Ha Hb. rewrite <- finish_run. unfold op_add_assign.
  destruct (decide (this = other)) as [->|Hne].
  - assert (a = b) as -> by congruence. run. reflexivity.
  - run. reflexivity.
Qed.

Lemma op_subtract_assign_run (this other : loc) (a b : rational) (h : heap) :
  h !! this = Some a -> h !! other = Some b ->
  op_subtract_assign this other h = finish this (difference_fields a b) h.
Proof.
  intros Ha Hb. rewrite <- finish_run. unfold op_subtract_assign.
  destruct (decide (this = other)) as [->|Hne].
  - assert (a = b) as -> by congruence. run. reflexivity.
  - run. reflexivity.
Qed.

Lemma op_multiply_assign_run (this other : loc) (a b : rational) (h : heap) :
  h !! this = Some a -> h !! other = Some b ->
  op_multiply_assign this other h = finish this (product_fields a b) h.
Proof.
  intros Ha Hb. rewrite <- finish_run. unfold op_multiply_assign.
  destruct (decide (this = other)) as [->|Hne].
  - assert (a = b) as -> by congruence. run. reflexivity.
  - run. reflexivity.
Qed.

Lemma op_divide_assign_throw (this other : loc) (b : rational) (h : heap) :
  h !! other = Some b -> num b = 0 ->
  op_divide_assign this other h
  = Throw (invalid_argument "Cannot divide by zero.") h.
Proof.
  intros Hb Hz. unfold op_divide_assign. run. rewrite Hz. reflexivity.
Qed.

Lemma op_divide_assign_run (this other : loc) (a b : rational) (h : heap) :
  this <> other -> h !! this = Some a -> h !! other = Some b -> num b <> 0 ->
  op_divide_assign this other h = finish this (quotient_fields a b) h.
Proof.
  intros Hne Ha Hb Hz. rewrite <- finish_run. unfold op_divide_assign.
  apply Z.eqb_neq in Hz. run. rewrite Hz. run. reflexivity.
Qed.

Lemma op_divide_assign_self_run (this : loc) (a : rational) (h : heap) :
  h !! this = Some a -> num a <> 0 ->
  op_divide_assign this this h = finish this (self_quotient_fields a) h.
Proof.
  intros Ha Hz. rewrite <- finish_run. unfold op_divide_assign.
  apply Z.eqb_neq in Hz. run. rewrite Hz. run. reflexivity.
Qed.

(** ** Facts about 64-bit arithmetic *)

Lemma wrap_id z : int64 z -> wrap z = z.
Proof.
  unfold int64, INT64_MIN, INT64_MAX, wrap. intros H.
  rewrite Z.mod_small; lia.
Qed.

Lemma wrap_int64 z : int64 (wrap z).
Proof.
  unfold int64, INT64_MIN, INT64_MAX, wrap.
  pose proof (Z.mod_pos_bound (z + 2 ^ 63) (2 ^ 64)). lia.
Qed.

Lemma neg64_opp z : int64 z -> z <> INT64_MIN -> neg64 z = - z.
Proof.
  intros H Hm. unfold neg64. apply wrap_id.
  unfold int64, INT64_MIN, INT64_MAX in *. lia.
Qed.

Lemma neg64_MIN : neg64 INT64_MIN = INT64_MIN.
Proof. reflexivity. Qed.

Lemma abs64_abs z : int64 z -> z <> INT64_MIN -> abs64 z = Z.abs z.
Proof.
  intros H Hm. unfold abs64. destruct (Z.ltb_spec z 0).
  - rewrite neg64_opp by done. lia.
  - lia.
Qed.

Lemma abs64_MIN : abs64 INT64_MIN = INT64_MIN.
Proof. reflexivity. Qed.

Lemma neg64_abs64 z : int64 z -> neg64 (abs64 z) = - Z.abs z.
Proof.
  intros H. destruct (decide (z = INT64_MIN)) as [->|Hm]; [reflexivity|].
  rewrite abs64_abs by done. apply neg64_opp.
  - unfold int64, INT64_MIN, INT64_MAX in *. lia.
  - unfold int64, INT64_MIN, INT64_MAX in *. lia.
Qed.

Lemma gcd_factor (n d : Z) :
  d <> 0 ->
  exists n' d', 0 < Z.gcd n d /\ n = n' * Z.gcd n d /\ d = d' * Z.gcd n d
                /\ Z.gcd n' d' = 1.
Proof.
  intros Hd.
  destruct (Z.gcd_divide_l n d) as [n' Hn'].
  destruct (Z.gcd_divide_r n d) as [d' Hd'].
  pose proof (Z.gcd_nonneg n d) as Hg.
  assert (Z.gcd n d <> 0) as Hg0.
  { intros E. apply Z.gcd_eq_0_r in E. done. }
  exists n', d'. repeat split; [lia|done|done|].
  pose proof (Z.gcd_mul_mono_r n' d' (Z.gcd n d)) as E.
  rewrite <- Hn', <- Hd' in E.
  rewrite Z.abs_eq in E by done. nia.
Qed.

Lemma gcd_MIN_odd (x : Z) : Z.gcd x INT64_MIN = 1 -> Z.odd x = true.
Proof.
  intros Hg. destruct (Z.odd x) eqn:Ho; [done|].
  rewrite <- Z.negb_even in Ho. apply negb_false_iff, Z.even_spec in Ho.
  destruct Ho as [k ->].
  assert ((2 | Z.gcd (2 * k) INT64_MIN)) as Hdiv.
  { apply Z.gcd_greatest.
    - exists k. lia.
    - exists (- 2 ^ 62). reflexivity. }
  rewrite Hg in Hdiv. destruct Hdiv as [q Hq]. lia.
Qed.

Lemma simplified_spec (n d : Z) :
  int64 n -> int64 d -> d <> 0 ->
  exists r,
    simplified (mk_rational n d) = Some r
    /\ int64 (num r) /\ int64 (denom r)
    /\ Z.gcd (num r) (denom r) = 1
    /\ (~ (d = INT64_MIN /\ Z.odd n = true) -> 0 < denom r)
    /\ (~ (d = INT64_MIN /\ Z.odd n = true) ->
        ~ (n = INT64_MIN /\ d < 0 /\ Z.odd d = true) ->
        num r * d = n * denom r).
Proof.
  intros Hn Hd Hd0.
  destruct (gcd_factor n d Hd0) as (n' & d' & Hg & En & Ed & Hco).
  unfold simplified, gcd64; cbn [num denom].
  remember (Z.gcd n d) as g eqn:Eg. clear Eg.
  destruct (decide (g < 2 ^ 63)) as [Hlt|Hge].
  - rewrite (wrap_id g) by (range; lia).
    assert ((g =? 0) = false) as -> by (apply Z.eqb_neq; lia).
    subst n d. rewrite !Z.quot_mul by lia.
    assert (int64 n') as Hn' by (range; nia).
    assert (int64 d') as Hd' by (range; nia).
    assert (d' <> 0) as Hd'0 by lia.
    rewrite !wrap_id by done.
    assert (d' = INT64_MIN -> g = 1) as HgD by (range; nia).
    assert (n' = INT64_MIN -> g = 1) as HgN by (range; nia).
    assert (d' = INT64_MIN -> Z.odd n' = true) as HoD.
    { intros ->. by apply gcd_MIN_odd. }
    assert (n' = INT64_MIN -> Z.odd d' = true) as HoN.
    { intros ->. apply gcd_MIN_odd. by rewrite Z.gcd_comm. }
    eexists; split; [reflexivity|].
    destruct (Z.ltb_spec n' 0) as [Hns|Hns], (Z.ltb_spec d' 0) as [Hds|Hds];
      cbn [xorb andb num denom].
    + (* both negative *)
      destruct (decide (n' = INT64_MIN)) as [->|Hnm],
               (decide (d' = INT64_MIN)) as [->|Hdm];
        rewrite ?neg64_MIN, ?neg64_opp by done.
      * exfalso. vm_compute in Hco. done.
      * specialize (HgN eq_refl) as ->. specialize (HoN eq_refl).
        rewrite !Z.mul_1_r. split_and!.
        -- done.
        -- range; lia.
        -- by rewrite Z.gcd_opp_r.
        -- lia.
        -- intros _ Hbad. exfalso. apply Hbad. split_and!; [done|lia|done].
      * specialize (HgD eq_refl) as ->. specialize (HoD eq_refl).
        rewrite !Z.mul_1_r. split_and!.
        -- range; lia.
        -- done.
        -- by rewrite Z.gcd_opp_l.
        -- intros Hbad. exfalso. by apply Hbad.
        -- intros Hbad. exfalso. by apply Hbad.
      * split_and!.
        -- range; lia.
        -- range; lia.
        -- by rewrite Z.gcd_opp_l, Z.gcd_opp_r.
        -- lia.
        -- intros _ _. lia.
    + (* numerator negative *)
      rewrite neg64_abs64 by done.
      rewrite abs64_abs by (done || (range; lia)).
      split_and!.
      * range; lia.
      * range; lia.
      * by rewrite Z.gcd_opp_l, Z.gcd_abs_l, Z.gcd_abs_r.
      * lia.
      * intros _ _. lia.
    + (* denominator negative *)
      rewrite neg64_abs64 by done.
      destruct (decide (d' = INT64_MIN)) as [->|Hdm].
      * specialize (HgD eq_refl) as ->. specialize (HoD eq_refl).
        rewrite abs64_MIN, !Z.mul_1_r. split_and!.
        -- range; lia.
        -- done.
        -- by rewrite Z.gcd_opp_l, Z.gcd_abs_l.
        -- intros Hbad. exfalso. by apply Hbad.
        -- intros Hbad. exfalso. by apply Hbad.
      * rewrite abs64_abs by done. split_and!.
        -- range; lia.
        -- range; lia.
        -- by rewrite Z.gcd_opp_l, Z.gcd_abs_l, Z.gcd_abs_r.
        -- lia.
        -- intros _ _. lia.
    + split_and!; [done|done|done|lia|intros _ _; ring].
  - assert (d' = -1 /\ g = 2 ^ 63) as [-> ->].
    { range. assert (d' <= -1 \/ d' = 0 \/ 1 <= d') as [?|[?|?]] by lia; nia. }
    assert (n' = 0 \/ n' = -1) as [->| ->]; [|subst n d..].
    { range. assert (n' <= -1 \/ n' = 0 \/ 1 <= n') as [?|[?|?]] by lia; nia. }
    + eexists; split; [vm_compute; reflexivity|]. cbn [num denom].
      split_and!; [by range|by range|done|done|done].
    + eexists; split; [vm_compute; reflexivity|]. cbn [num denom].
      split_and!; [by range|by range|done|done|done].
Qed.

(** ** Running the constructors and the remaining operators *)

Lemma fresh_lookup (h : heap) : h !! fresh (dom h) = None.
Proof. apply not_elem_of_dom, is_fresh. Qed.

Lemma fresh_ne (h : heap) (p : loc) (r : rational) :
  h !! p = Some r -> fresh (dom h) <> p.
Proof. intros Hp E. rewrite <- E, fresh_lookup in Hp. done. Qed.

Lemma construct_integer_run (value : Z) (h : heap) :
  construct_integer value h
  = Ret (fresh (dom h)) (<[fresh (dom h) := mk_rational value 1]> h).
Proof. reflexivity. Qed.

Lemma construct_num_denom_throw (n : Z) (h : heap) :
  construct_num_denom n 0 h
  = Throw (invalid_argument "Denominator must be non-zero.") h.
Proof.
  unfold construct_num_denom, alloc. run. cbn [denom Z.eqb]. run.
  by rewrite delete_insert_id by apply fresh_lookup.
Qed.

Lemma construct_num_denom_run (n d : Z) (h : heap) :
  d <> 0 ->
  construct_num_denom n d h = finish (fresh (dom h)) (mk_rational n d) h.
Proof.
  intros Hd. apply Z.eqb_neq in Hd.
  unfold construct_num_denom, alloc, finish. run. cbn [denom]. rewrite Hd.
  run. by destruct (simplified _).
Qed.

Lemma construct_copy_run (other : loc) (a : rational) (h : heap) :
  h !! other = Some a ->
  construct_copy other h = Ret (fresh (dom h)) (<[fresh (dom h) := a]> h).
Proof.
  intros Ha. unfold construct_copy, alloc. run. by destruct a.
Qed.

Lemma op_assign_run (this other : loc) (a b : rational) (h : heap) :
  h !! this = Some a -> h !! other = Some b ->
  op_assign this other h = Ret this (<[this := b]> h).
Proof.
  intros Ha Hb. unfold op_assign.
  destruct (decide (this = other)) as [->|Hne].
  - assert (a = b) as -> by congruence. run. by destruct b.
  - run. by destruct b.
Qed.

Lemma finish_insert (p : loc) (r a : rational) (h : heap) :
  finish p r (<[p := a]> h) = finish p r h.
Proof. unfold finish. destruct (simplified r); by rewrite insert_insert_eq. Qed.

Lemma binary_run (compound : loc -> loc -> M loc) (l r : loc)
      (a fields : rational) (h : heap) :
  h !! l = Some a ->
  (let p := fresh (dom h) in
   compound p r (<[p := a]> h) = finish p fields (<[p := a]> h)) ->
  binary compound l r h = finish (fresh (dom h)) fields h.
Proof.
  intros Ha Hc. cbv zeta in Hc. unfold binary.
  unfold bind at 1. rewrite (construct_copy_run _ _ _ Ha).
  cbv beta iota delta [bind unwinding ret]. rewrite Hc, finish_insert.
  unfold finish. by destruct (simplified fields).
Qed.

Lemma binary_throw (compound : loc -> loc -> M loc) (l r : loc)
      (a : rational) (e : exn) (h : heap) :
  h !! l = Some a ->
  (let p := fresh (dom h) in
   compound p r (<[p := a]> h) = Throw e (<[p := a]> h)) ->
  binary compound l r h = Throw e h.
Proof.
  intros Ha Hc. cbv zeta in Hc. unfold binary.
  unfold bind at 1. rewrite (construct_copy_run _ _ _ Ha).
  cbv beta iota delta [bind unwinding ret free]. rewrite Hc.
  by rewrite delete_insert_id by apply fresh_lookup.
Qed.

Section Binary_run.
Context (l r : loc) (a b : rational) (h : heap).
Hypothesis Ha : h !! l = Some a.
Hypothesis Hb : h !! r = Some b.

Let Hp : fresh (dom h) <> r := fresh_ne h r b Hb.

Lemma op_add_run : op_add l r h = finish (fresh (dom h)) (sum_fields a b) h.
Proof.
  apply (binary_run _ _ _ a); [done|]. cbv zeta.
  apply op_add_assign_run; by lookups.
Qed.

Lemma op_subtract_run :
  op_subtract l r h = finish (fresh (dom h)) (difference_fields a b) h.
Proof.
  apply (binary_run _ _ _ a); [done|]. cbv zeta.
  apply op_subtract_assign_run; by lookups.
Qed.

Lemma op_multiply_run :
  op_multiply l r h = finish (fresh (dom h)) (product_fields a b) h.
Proof.
  apply (binary_run _ _ _ a); [done|]. cbv zeta.
  apply op_multiply_assign_run; by lookups.
Qed.

Lemma op_divide_run :
  num b <> 0 ->
  op_divide l r h = finish (fresh (dom h)) (quotient_fields a b) h.
Proof.
  intros Hz. apply (binary_run _ _ _ a); [done|]. cbv zeta.
  apply op_divide_assign_run; by lookups.
Qed.

Lemma op_divide_throw :
  num b = 0 ->
  op_divide l r h = Throw (invalid_argument "Cannot divide by zero.") h.
Proof.
  intros Hz. apply (binary_throw _ _ _ a); [done|]. cbv zeta.
  apply (op_divide_assign_throw _ _ b); by lookups.
Qed.

End Binary_run.

Lemma op_pre_increment_run (this : loc) (a : rational) (h : heap) :
  h !! this = Some a ->
  op_pre_increment this h
  = Ret this
      (<[this := mk_rational (add64 (num a) (abs64 (denom a))) (denom a)]> h).
Proof. intros Ha. unfold op_pre_increment. run. reflexivity. Qed.

Lemma op_pre_decrement_run (this : loc) (a : rational) (h : heap) :
  h !! this = Some a ->
  op_pre_decrement this h
  = Ret this
      (<[this := mk_rational (sub64 (num a) (abs64 (denom a))) (denom a)]> h).
Proof. intros Ha. unfold op_pre_decrement. run. reflexivity. Qed.

Lemma op_post_increment_run (this : loc) (a : rational) (h : heap) :
  h !! this = Some a ->
  op_post_increment this h
  = Ret (fresh (dom h))
      (<[this := mk_rational (add64 (num a) (abs64 (denom a))) (denom a)]>
         (<[fresh (dom h) := a]> h)).
Proof.
  intros Ha. unfold op_post_increment.
  unfold bind at 1. rewrite (construct_copy_run _ _ _ Ha).
  unfold bind at 1.
  rewrite (op_pre_increment_run this a)
    by (rewrite lookup_insert_ne; [done|by eapply fresh_ne]).
  reflexivity.
Qed.

Lemma op_post_decrement_run (this : loc) (a : rational) (h : heap) :
  h !! this = Some a ->
  op_post_decrement this h
  = Ret (fresh (dom h))
      (<[this := mk_rational (sub64 (num a) (abs64 (denom a))) (denom a)]>
         (<[fresh (dom h) := a]> h)).
Proof.
  intros Ha. unfold op_post_decrement.
  unfold bind at 1. rewrite (construct_copy_run _ _ _ Ha).
  unfold bind at 1.
  rewrite (op_pre_decrement_run this a)
    by (rewrite lookup_insert_ne; [done|by eapply fresh_ne]).
  reflexivity.
Qed.

Lemma op_positive_run (this : loc) (a : rational) (h : heap) :
  h !! this = Some a ->
  op_positive this h
  = construct_num_denom (abs64 (num a)) (abs64 (denom a)) h.
Proof. intros Ha. unfold op_positive. run. reflexivity. Qed.

Lemma op_negative_run (this : loc) (a : rational) (h : heap) :
  h !! this = Some a ->
  op_negative this h = construct_num_denom (neg64 (num a)) (denom a) h.
Proof. intros Ha. unfold op_negative. run. reflexivity. Qed.

(** ** Normalization establishes the invariant *)

Lemma normalized_gcd (r : rational) :
  normalized r <-> 0 < denom r /\ Z.gcd (num r) (denom r) = 1.
Proof. unfold normalized. by rewrite Z.gcd_abs_l. Qed.

Lemma finish_valid (this : loc) (n d : Z) (h : heap) :
  int64 n -> int64 d -> d <> 0 ->
  ~ (d = INT64_MIN /\ Z.odd n = true) ->
  exists r,
    finish this (mk_rational n d) h = Ret this (<[this := r]> h)
    /\ valid r
    /\ (~ (n = INT64_MIN /\ d < 0 /\ Z.odd d = true) ->
        num r * d = n * denom r).
Proof.
  intros Hn Hd Hd0 Hok.
  destruct (simplified_spec n d Hn Hd Hd0)
    as (r & Hr & Hrn & Hrd & Hg & Hpos & Hval).
  exists r. unfold finish. rewrite Hr. split_and!.
  - done.
  - split; [done|]. apply normalized_gcd. auto.
  - auto.
Qed.

(** Lowest terms with a positive denominator determine the fields. *)
Lemma lowest_terms_unique (n1 d1 n2 d2 : Z) :
  0 < d1 -> 0 < d2 -> Z.gcd n1 d1 = 1 -> Z.gcd n2 d2 = 1 ->
  n1 * d2 = n2 * d1 -> n1 = n2 /\ d1 = d2.
Proof.
  intros H1 H2 G1 G2 E.
  assert (d1 = d2) as ->.
  { apply Z.divide_antisym_nonneg; [lia|lia| |].
    - apply (Z.gauss d1 n1 d2); [|by rewrite Z.gcd_comm].
      exists n2. lia.
    - apply (Z.gauss d2 n2 d1); [|by rewrite Z.gcd_comm].
      exists n1. lia. }
  split; [|done]. nia.
Qed.

Lemma valid_unique (a b : rational) :
  normalized a -> normalized b ->
  num a * denom b = num b * denom a -> a = b.
Proof.
  intros [Ha Ga]%normalized_gcd [Hb Gb]%normalized_gcd E.
  destruct a as [n1 d1], b as [n2 d2]; cbn [num denom] in *.
  destruct (lowest_terms_unique n1 d1 n2 d2) as [-> ->]; done.
Qed.

(** Normalizing an object that satisfies the invariant changes nothing. *)
Lemma finish_idempotent (this : loc) (r : rational) (h : heap) :
  valid r -> finish this r h = Ret this (<[this := r]> h).
Proof.
  intros [[Hn Hd] Hr]. pose proof Hr as [Hpos Hg].
  destruct r as [n d]; cbn [num denom] in *.
  destruct (finish_valid this n d h) as (r' & Hrun & [_ Hr'] & Hval);
    [done|done|lia| |].
  { intros [-> _]. done. }
  rewrite Hrun. do 2 f_equal. apply valid_unique; [done|done|].
  cbn [num denom]. apply Hval. lia.
Qed.

(** ** The class invariant is preserved *)

Lemma store_invariant_insert (h : heap) (p : loc) (r : rational) :
  store_invariant h -> valid r -> store_invariant (<[p := r]> h).
Proof.
  intros Hh Hr q x. rewrite lookup_insert. case_decide.
  - by intros [= <-].
  - apply Hh.
Qed.

Lemma store_invariant_empty : store_invariant ∅.
Proof. intros p r. by rewrite lookup_empty. Qed.

Lemma wrap_mod (z : Z) : wrap z mod 2 ^ 64 = z mod 2 ^ 64.
Proof.
  unfold wrap. rewrite Zminus_mod_idemp_l. f_equal. lia.
Qed.

Lemma wrap_congr (x y : Z) : x mod 2 ^ 64 = y mod 2 ^ 64 -> wrap x = wrap y.
Proof.
  intros E. unfold wrap. f_equal.
  rewrite <- (Zplus_mod_idemp_l x), <- (Zplus_mod_idemp_l y). by rewrite E.
Qed.

Lemma wrap_wrap_l (x y : Z) : wrap (wrap x * y) = wrap (x * y).
Proof.
  apply wrap_congr.
  rewrite <- (Zmult_mod_idemp_l (wrap x)), <- (Zmult_mod_idemp_l x).
  by rewrite wrap_mod.
Qed.

Lemma wrap_wrap_r (x y : Z) : wrap (x * wrap y) = wrap (x * y).
Proof. by rewrite Z.mul_comm, wrap_wrap_l, Z.mul_comm. Qed.

Lemma wrap_add_wrap (x y : Z) : wrap (wrap x + wrap y) = wrap (x + y).
Proof.
  apply wrap_congr.
  rewrite Zplus_mod, !wrap_mod. by rewrite <- Zplus_mod.
Qed.

Lemma wrap_sub_wrap (x y : Z) : wrap (wrap x - wrap y) = wrap (x - y).
Proof.
  apply wrap_congr.
  rewrite Zminus_mod, !wrap_mod. by rewrite <- Zminus_mod.
Qed.

Lemma accessors_run (p : loc) (r : rational) (h : heap) :
  h !! p = Some r ->
  numerator p h = Ret (num r) h /\ denominator p h = Ret (denom r) h.
Proof. intros Hp. unfold numerator, denominator. split; run; reflexivity. Qed.

Lemma establishes_insert (p : loc) (r : rational) (h : heap) :
  store_invariant h -> valid r -> establishes (Ret p (<[p := r]> h)).
Proof.
  intros Hh Hr. exists p, (<[p := r]> h). split_and!; [done| |].
  - by apply store_invariant_insert.
  - exists (num r), (denom r).
    destruct (accessors_run p r (<[p := r]> h)) as [-> ->];
      [apply lookup_insert_eq|].
    destruct Hr as [_ [? ?]]. done.
Qed.

Lemma finish_establishes (p : loc) (n d : Z) (h : heap) :
  store_invariant h ->
  d <> 0 -> ~ (wrap d = INT64_MIN /\ Z.odd (wrap n) = true) -> int64 d ->
  establishes (finish p (mk_rational (wrap n) (wrap d)) h).
Proof.
  intros Hh Hd0 Hok Hd. 
  destruct (finish_valid p (wrap n) (wrap d) h) as (r & -> & Hr & _).
  - apply wrap_int64.
  - apply wrap_int64.
  - by rewrite wrap_id.
  - done.
  - by apply establishes_insert.
Qed.

Lemma valid_pos (r : rational) : valid r -> 0 < denom r /\ int64 (denom r).
Proof. intros [[_ ?] [? _]]. done. Qed.

Lemma bounded_product_establishes (p : loc) (n : Z) (a b : rational) (h : heap) :
  store_invariant h -> valid a -> valid b ->
  int64 (denom a * denom b) ->
  establishes
    (finish p (mk_rational (wrap n) (mul64 (denom a) (denom b))) h).
Proof.
  intros Hh [Ha _]%valid_pos [Hb _]%valid_pos Hfit.
  apply finish_establishes; [done|nia| |done].
  rewrite (wrap_id (_ * _)) by done. intros [E _]. range. nia.
Qed.

Lemma signed_product_establishes (p : loc) (n d : Z) (h : heap) :
  store_invariant h -> d <> 0 -> signed_fits d ->
  establishes (finish p (mk_rational (wrap n) (wrap d)) h).
Proof.
  intros Hh Hd0 [Hd Hd']. apply finish_establishes; [done|done| |done].
  rewrite (wrap_id d) by done. intros [E _]. range. lia.
Qed.

Lemma increment_valid (a : rational) :
  valid a -> int64 (num a + denom a) ->
  mk_rational (add64 (num a) (abs64 (denom a))) (denom a)
  = mk_rational (num a + denom a) (denom a)
  /\ valid (mk_rational (num a + denom a) (denom a)).
Proof.
  intros [[Hn Hd] [Hpos Hg]] Hfit. split.
  - rewrite abs64_abs by (done || (range; lia)).
    unfold add64. rewrite Z.abs_eq by lia. by rewrite wrap_id.
  - split; [done|]. apply normalized_gcd; cbn [num denom]. split; [done|].
    rewrite Z.gcd_abs_l in Hg.
    rewrite Z.gcd_comm, Z.gcd_add_diag_r, Z.gcd_comm. done.
Qed.

Lemma decrement_valid (a : rational) :
  valid a -> int64 (num a - denom a) ->
  mk_rational (sub64 (num a) (abs64 (denom a))) (denom a)
  = mk_rational (num a - denom a) (denom a)
  /\ valid (mk_rational (num a - denom a) (denom a)).
Proof.
  intros [[Hn Hd] [Hpos Hg]] Hfit. split.
  - rewrite abs64_abs by (done || (range; lia)).
    unfold sub64. rewrite Z.abs_eq by lia. by rewrite wrap_id.
  - split; [done|]. apply normalized_gcd; cbn [num denom]. split; [done|].
    rewrite Z.gcd_abs_l in Hg.
    rewrite Z.gcd_comm, Z.gcd_sub_diag_r, Z.gcd_comm. done.
Qed.

Lemma construct_zero_run (d : Z) (h : heap) :
  int64 d -> d <> 0 ->
  construct_num_denom 0 d h
  = Ret (fresh (dom h)) (<[fresh (dom h) := mk_rational 0 1]> h).
Proof.
  intros Hd Hd0. rewrite construct_num_denom_run by done.
  destruct (finish_valid (fresh (dom h)) 0 d h)
    as (r & -> & [_ [Hpos Hg]] & Hval); [by range|done|done|by intros [_ ?]|].
  do 2 f_equal. destruct r as [n' d']; cbn [num denom] in *.
  assert (n' = 0) as -> by (assert (n' * d = 0) by (apply Hval; by intros [? _]); nia).
  rewrite Z.gcd_0_l, Z.abs_eq in Hg by lia. by subst d'.
Qed.

(** C1, bounded form: the class invariant is kept within bounds.  In a store
    whose objects all have a positive denominator and are in lowest terms, a
    call of a constructor or of an operator whose operands exist and that
    stays [within_bounds] returns; afterwards every object of the store, the
    new or changed one included, satisfies the invariant, and the accessors
    of the returned object give a denominator [> 0] with
    [gcd(|numerator|, denominator) = 1].  The bounds are: for
    [rational(n, d)], [d] is not zero and is not [INT64_MIN] with [n] odd;
    for [+=], [-=], [*=], [+], [-], [*], the product of the two denominators
    fits in 64 bits; for [/=] with a divisor that is another object, and
    for [/], the numerator of the divisor is not zero and the denominator
    times that numerator fits together with its negation; for [++] and [--],
    numerator plus (minus) denominator fits.  [a /= a] is not covered.
    And [rational(0, d)] has numerator 0 and denominator 1 for every non-zero
    [d]. *)
Theorem class_invariant_bounded (op : operation) (h : heap) :
  store_invariant h -> within_bounds op h ->
  establishes (call op h)
  /\ (forall d, op = Construct_num_denom 0 d ->
        call op h
        = Ret (fresh (dom h)) (<[fresh (dom h) := mk_rational 0 1]> h)).
Proof.
  intros Hh Hop. split.
  2:{ intros d ->. destruct Hop as (_ & Hd & Hd0 & _).
      by apply construct_zero_run. }
  destruct op as [v|n d|other|this other|this|this
                 |this other|l r|this other|l r|this other|l r|this other|l r
                 |this|this|this|this];
    cbn [call within_bounds] in *; unfold operand, operands in *.
  - (* rational(value) *)
    rewrite construct_integer_run. apply establishes_insert; [done|].
    split; [split; [done|by range]|]. split; cbn [num denom]; [lia|].
    apply Z.gcd_1_r.
  - (* rational(numerator, denominator) *)
    destruct Hop as (Hn & Hd & Hd0 & Hok).
    rewrite construct_num_denom_run by done.
    rewrite <- (wrap_id n), <- (wrap_id d) by done.
    apply finish_establishes; rewrite ?wrap_id by done; done.
  - (* copy *)
    destruct Hop as (a & Ha & _).
    rewrite (construct_copy_run _ a) by done.
    apply establishes_insert; eauto.
  - (* operator= *)
    destruct Hop as (a & b & Ha & Hb & _).
    rewrite (op_assign_run _ _ a b) by done.
    apply establishes_insert; eauto.
  - (* unary + *)
    destruct Hop as (a & Ha & _). pose proof (Hh _ _ Ha) as Hv.
    destruct (valid_pos a Hv) as [Hpos Hd]. destruct Hv as [[Hn _] _].
    rewrite (op_positive_run _ a) by done.
    rewrite (abs64_abs (denom a)), (Z.abs_eq (denom a))
      by (done || (range; lia)).
    rewrite construct_num_denom_run by lia.
    assert (int64 (abs64 (num a))) as Hn'.
    { unfold abs64. destruct (_ <? _); [apply wrap_int64|done]. }
    rewrite <- (wrap_id (abs64 _)), <- (wrap_id (denom a)) by done.
    apply finish_establishes; rewrite ?wrap_id by done; [done|lia| |done].
    intros [E _]. range. lia.
  - (* unary - *)
    destruct Hop as (a & Ha & _). pose proof (Hh _ _ Ha) as Hv.
    destruct (valid_pos a Hv) as [Hpos Hd].
    rewrite (op_negative_run _ a) by done.
    rewrite construct_num_denom_run by lia.
    unfold neg64. rewrite <- (wrap_id (denom a)) by done.
    apply finish_establishes; rewrite ?wrap_id by done; [done|lia| |done].
    intros [E _]. range. lia.
  - (* += *)
    destruct Hop as (a & b & Ha & Hb & Hfit).
    rewrite (op_add_assign_run _ _ a b) by done.
    apply bounded_product_establishes; eauto.
  - (* + *)
    destruct Hop as (a & b & Ha & Hb & Hfit).
    rewrite (op_add_run _ _ a b) by done.
    apply bounded_product_establishes; eauto.
  - (* -= *)
    destruct Hop as (a & b & Ha & Hb & Hfit).
    rewrite (op_subtract_assign_run _ _ a b) by done.
    apply bounded_product_establishes; eauto.
  - (* - *)
    destruct Hop as (a & b & Ha & Hb & Hfit).
    rewrite (op_subtract_run _ _ a b) by done.
    apply bounded_product_establishes; eauto.
  - (* *= *)
    destruct Hop as (a & b & Ha & Hb & Hfit).
    rewrite (op_multiply_assign_run _ _ a b) by done.
    apply bounded_product_establishes; eauto.
  - (* * *)
    destruct Hop as (a & b & Ha & Hb & Hfit).
    rewrite (op_multiply_run _ _ a b) by done.
    apply bounded_product_establishes; eauto.
  - (* /= *)
    destruct Hop as (Hne & a & b & Ha & Hb & Hz & Hfit).
    destruct (valid_pos a (Hh _ _ Ha)) as [Hpos _].
    rewrite (op_divide_assign_run _ _ a b) by done.
    apply signed_product_establishes; [done|nia|done].
  - (* / *)
    destruct Hop as (a & b & Ha & Hb & Hz & Hfit).
    destruct (valid_pos a (Hh _ _ Ha)) as [Hpos _].
    rewrite (op_divide_run _ _ a b) by done.
    apply signed_product_establishes; [done|nia|done].
  - (* ++x *)
    destruct Hop as (a & Ha & Hfit).
    rewrite (op_pre_increment_run _ a) by done.
    destruct (increment_valid a) as [-> Hv]; eauto.
    by apply establishes_insert.
  - (* x++ *)
    destruct Hop as (a & Ha & Hfit).
    rewrite (op_post_increment_run _ a) by done.
    destruct (increment_valid a) as [-> Hv]; eauto.
    exists (fresh (dom h)), (<[this := mk_rational (num a + denom a) (denom a)]>
                               (<[fresh (dom h) := a]> h)).
    assert (fresh (dom h) <> this) as Hne by by eapply fresh_ne.
    split_and!; [done| |].
    + apply store_invariant_insert; [|done].
      apply store_invariant_insert; eauto.
    + destruct (Hh _ _ Ha) as [_ [? ?]].
      exists (num a), (denom a).
      destruct (accessors_run (fresh (dom h)) a
                  (<[this := mk_rational (num a + denom a) (denom a)]>
                     (<[fresh (dom h) := a]> h))) as [-> ->]; [by lookups|done].
  - (* --x *)
    destruct Hop as (a & Ha & Hfit).
    rewrite (op_pre_decrement_run _ a) by done.
    destruct (decrement_valid a) as [-> Hv]; eauto.
    by apply establishes_insert.
  - (* x-- *)
    destruct Hop as (a & Ha & Hfit).
    rewrite (op_post_decrement_run _ a) by done.
    destruct (decrement_valid a) as [-> Hv]; eauto.
    exists (fresh (dom h)), (<[this := mk_rational (num a - denom a) (denom a)]>
                               (<[fresh (dom h) := a]> h)).
    assert (fresh (dom h) <> this) as Hne by by eapply fresh_ne.
    split_and!; [done| |].
    + apply store_invariant_insert; [|done].
      apply store_invariant_insert; eauto.
    + destruct (Hh _ _ Ha) as [_ [? ?]].
      exists (num a), (denom a).
      destruct (accessors_run (fresh (dom h)) a
                  (<[this := mk_rational (num a - denom a) (denom a)]>
                     (<[fresh (dom h) := a]> h))) as [-> ->]; [by lookups|done].
Qed.

(** [rational(0, -5)] in a store that holds -1/2. *)
Lemma class_invariant_bounded_witness :
  let h : heap := <[0%nat := mk_rational (-1) 2]> ∅ in
  establishes (call (Construct_num_denom 0 (-5)) h)
  /\ (forall d, Construct_num_denom 0 (-5) = Construct_num_denom 0 d ->
        call (Construct_num_denom 0 (-5)) h
        = Ret (fresh (dom h)) (<[fresh (dom h) := mk_rational 0 1]> h)).
Proof.
  apply (class_invariant_bounded (Construct_num_denom 0 (-5))).
  - apply store_invariant_insert.
    + apply store_invariant_empty.
    + repeat split; cbn [num denom]; unfold INT64_MIN, INT64_MAX; lia.
  - cbn [within_bounds]. unfold int64, INT64_MIN, INT64_MAX.
    repeat split; lia.
Defined.

(** Beyond the bounds: [1/2^32 += 1/2^32] leaves the denominator 0, and
    [rational(1, INT64_MIN)] keeps the denominator [INT64_MIN]; and
    [a /= a] at [a = 1/2^32], where the second statement multiplies the
    denominator by the numerator already overwritten, leaves [1/0]. *)
Lemma class_invariant_counterexample :
  let h : heap :=
    <[0%nat := mk_rational 1 (2 ^ 32)]> (<[1%nat := mk_rational 1 (2 ^ 32)]> ∅) in
  (store_invariant h
   /\ call (Add_assign 0%nat 1%nat) h
      = Ret 0%nat (<[0%nat := mk_rational 1 0]> h)
   /\ ~ establishes (call (Add_assign 0%nat 1%nat) h))
  /\ (int64 1 /\ int64 INT64_MIN /\ INT64_MIN <> 0
      /\ call (Construct_num_denom 1 INT64_MIN) ∅
         = Ret 0%nat {[0%nat := mk_rational (-1) INT64_MIN]}
      /\ ~ establishes (call (Construct_num_denom 1 INT64_MIN) ∅))
  /\ (call (Divide_assign 0%nat 0%nat) h
      = Ret 0%nat (<[0%nat := mk_rational 1 0]> h)
      /\ ~ establishes (call (Divide_assign 0%nat 0%nat) h)).
Proof.
  cbv zeta. split_and!.
  - apply store_invariant_insert; [apply store_invariant_insert|].
    + apply store_invariant_empty.
    + repeat split; cbn [num denom]; unfold INT64_MIN, INT64_MAX; lia.
    + repeat split; cbn [num denom]; unfold INT64_MIN, INT64_MAX; lia.
  - vm_compute. reflexivity.
  - intros (p & h' & E & _ & n & d & _ & Hd & Hpos & _).
    vm_compute in E. injection E as <- <-.
    vm_compute in Hd. injection Hd as <-. lia.
  - by range.
  - by range.
  - done.
  - vm_compute. reflexivity.
  - intros (p & h' & E & _ & n & d & _ & Hd & Hpos & _).
    vm_compute in E. injection E as <- <-.
    vm_compute in Hd. injection Hd as <-. lia.
  - vm_compute. reflexivity.
  - intros (p & h' & E & _ & n & d & _ & Hd & Hpos & _).
    vm_compute in E. injection E as <- <-.
    vm_compute in Hd. injection Hd as <-. lia.
Qed.

(** ** Failures *)

(** C4: for every [n], [rational(n, 0)] throws [invalid_argument] and the
    store is the one before the call: no object has been created. *)
Theorem zero_denominator_throws (n : Z) (h : heap) :
  construct_num_denom n 0 h
  = Throw (invalid_argument "Denominator must be non-zero.") h.
Proof. apply construct_num_denom_throw. Qed.

(** C3: when the numerator of [b] is 0, whatever its denominator, [a /= b]
    and [a / b] throw the division-by-zero [invalid_argument]; the store is
    the one before the call, so [a] is unmodified. *)
Theorem division_by_zero_throws (this other : loc) (a b : rational) (h : heap) :
  h !! this = Some a -> h !! other = Some b -> num b = 0 ->
  op_divide_assign this other h
  = Throw (invalid_argument "Cannot divide by zero.") h
  /\ op_divide this other h
     = Throw (invalid_argument "Cannot divide by zero.") h
  /\ store_of (op_divide_assign this other h) !! this = Some a
  /\ store_of (op_divide this other h) !! this = Some a.
Proof.
  intros Ha Hb Hz.
  rewrite (op_divide_assign_throw this other b h Hb Hz).
  rewrite (op_divide_throw this other a b h Ha Hb Hz).
  done.
Qed.

(** [5/6] divided by [0/1]. *)
Lemma division_by_zero_throws_witness :
  let h : heap := <[0%nat := mk_rational 5 6]> (<[1%nat := mk_rational 0 1]> ∅) in
  op_divide_assign 0%nat 1%nat h
  = Throw (invalid_argument "Cannot divide by zero.") h
  /\ op_divide 0%nat 1%nat h
     = Throw (invalid_argument "Cannot divide by zero.") h
  /\ store_of (op_divide_assign 0%nat 1%nat h) !! 0%nat
     = Some (mk_rational 5 6)
  /\ store_of (op_divide 0%nat 1%nat h) !! 0%nat = Some (mk_rational 5 6).
Proof.
  apply (division_by_zero_throws 0%nat 1%nat (mk_rational 5 6)
           (mk_rational 0 1)); reflexivity.
Defined.

(** ** The binary operators leave their operands alone *)

Lemma store_of_finish (p : loc) (r : rational) (h : heap) (q : loc) :
  h !! p = None -> is_Some (h !! q) ->
  store_of (finish p r h) !! q = h !! q.
Proof.
  intros Hp [x Hq]. unfold finish.
  destruct (simplified r); cbn [store_of];
    rewrite lookup_insert_ne; congruence.
Qed.

(** C9: whatever the outcome of [a + b], [a - b], [a * b] or [a / b], the
    objects [a] and [b] hold the fields they held before the call. *)
Theorem binary_operands_unchanged (l r : loc) (a b : rational) (h : heap) :
  h !! l = Some a -> h !! r = Some b ->
  forall op, op ∈ [op_add; op_subtract; op_multiply; op_divide] ->
    store_of (op l r h) !! l = Some a /\ store_of (op l r h) !! r = Some b.
Proof.
  intros Ha Hb op Hop.
  assert (forall q, is_Some (h !! q) -> store_of (op l r h) !! q = h !! q)
    as Hframe.
  { intros q Hq. pose proof (fresh_lookup h) as Hp.
    repeat (apply elem_of_cons in Hop as [->|Hop]).
    - rewrite (op_add_run l r a b) by done. by apply store_of_finish.
    - rewrite (op_subtract_run l r a b) by done. by apply store_of_finish.
    - rewrite (op_multiply_run l r a b) by done. by apply store_of_finish.
    - destruct (decide (num b = 0)) as [Hz|Hz].
      + by rewrite (op_divide_throw l r a b).
      + rewrite (op_divide_run l r a b) by done. by apply store_of_finish.
    - by apply elem_of_nil in Hop. }
  rewrite !Hframe by eauto. done.
Qed.

(** [-1/2] and [4/3] after [-1/2 / 4/3]. *)
Lemma binary_operands_unchanged_witness :
  let h : heap := <[0%nat := mk_rational (-1) 2]> (<[1%nat := mk_rational 4 3]> ∅) in
  store_of (op_divide 0%nat 1%nat h) !! 0%nat = Some (mk_rational (-1) 2)
  /\ store_of (op_divide 0%nat 1%nat h) !! 1%nat = Some (mk_rational 4 3).
Proof.
  apply (binary_operands_unchanged 0%nat 1%nat (mk_rational (-1) 2)
           (mk_rational 4 3)); [reflexivity|reflexivity|].
  apply list_elem_of_In. cbn. tauto.
Defined.

(** ** Exact results *)

Lemma simplified_exact (n d : Z) :
  int64 n -> int64 d -> d <> 0 ->
  0 < d \/ (signed_fits n /\ signed_fits d) ->
  exists r,
    simplified (mk_rational n d) = Some r
    /\ valid r /\ num r * d = n * denom r.
Proof.
  intros Hn Hd Hd0 Hs.
  destruct (simplified_spec n d Hn Hd Hd0)
    as (r & Hr & Hrn & Hrd & Hg & Hpos & Hval).
  assert (~ (d = INT64_MIN /\ Z.odd n = true)) as Hok.
  { intros [-> _]. destruct Hs as [?|[_ [_ ?]]]; range; lia. }
  exists r. split_and!; [done| |].
  - split; [done|]. apply normalized_gcd. auto.
  - apply Hval; [done|].
    intros (-> & ? & _). destruct Hs as [?|[[_ ?] _]]; range; lia.
Qed.

Lemma Qvalue_sum (r a b : rational) :
  0 < denom r -> 0 < denom a -> 0 < denom b ->
  num r * (denom a * denom b)
  = (num a * denom b + denom a * num b) * denom r ->
  Qvalue r == Qvalue a + Qvalue b.
Proof.
  intros Hr Ha Hb E. unfold Qvalue, Qeq, Qplus; cbn [Qnum Qden].
  rewrite Pos2Z.inj_mul, !Z2Pos.id by done. lia.
Qed.

Lemma Qvalue_difference (r a b : rational) :
  0 < denom r -> 0 < denom a -> 0 < denom b ->
  num r * (denom a * denom b)
  = (num a * denom b - denom a * num b) * denom r ->
  Qvalue r == Qvalue a - Qvalue b.
Proof.
  intros Hr Ha Hb E. unfold Qvalue, Qeq, Qminus, Qplus, Qopp; cbn [Qnum Qden].
  rewrite Pos2Z.inj_mul, !Z2Pos.id by done. lia.
Qed.

Lemma Qvalue_product (r a b : rational) :
  0 < denom r -> 0 < denom a -> 0 < denom b ->
  num r * (denom a * denom b) = (num a * num b) * denom r ->
  Qvalue r == Qvalue a * Qvalue b.
Proof.
  intros Hr Ha Hb E. unfold Qvalue, Qeq, Qmult; cbn [Qnum Qden].
  rewrite Pos2Z.inj_mul, !Z2Pos.id by done. lia.
Qed.

Lemma Qvalue_quotient (r a b : rational) :
  0 < denom r -> 0 < denom a -> 0 < denom b -> num b <> 0 ->
  num r * (denom a * num b) = (num a * denom b) * denom r ->
  Qvalue r == Qvalue a / Qvalue b.
Proof.
  intros Hr Ha Hb Hz E.
  assert (~ Qvalue b == 0) as Hb0.
  { unfold Qvalue, Qeq; cbn [Qnum Qden]. lia. }
  assert (Qvalue r * Qvalue b == Qvalue a) as <-.
  { unfold Qvalue, Qeq, Qmult; cbn [Qnum Qden].
    rewrite Pos2Z.inj_mul, !Z2Pos.id by done. lia. }
  symmetry. by apply Qdiv_mult_l.
Qed.

Lemma sum_fields_exact (a b : rational) :
  int64 (num a * denom b + denom a * num b) -> int64 (denom a * denom b) ->
  sum_fields a b
  = mk_rational (num a * denom b + denom a * num b) (denom a * denom b).
Proof.
  intros Hn Hd. unfold sum_fields, add64, mul64.
  by rewrite wrap_add_wrap, !wrap_id.
Qed.

Lemma difference_fields_exact (a b : rational) :
  int64 (num a * denom b - denom a * num b) -> int64 (denom a * denom b) ->
  difference_fields a b
  = mk_rational (num a * denom b - denom a * num b) (denom a * denom b).
Proof.
  intros Hn Hd. unfold difference_fields, sub64, mul64.
  by rewrite wrap_sub_wrap, !wrap_id.
Qed.

Lemma product_fields_exact (a b : rational) :
  int64 (num a * num b) -> int64 (denom a * denom b) ->
  product_fields a b = mk_rational (num a * num b) (denom a * denom b).
Proof.
  intros Hn Hd. unfold product_fields, mul64. by rewrite !wrap_id.
Qed.

Lemma quotient_fields_exact (a b : rational) :
  int64 (num a * denom b) -> int64 (denom a * num b) ->
  quotient_fields a b = mk_rational (num a * denom b) (denom a * num b).
Proof.
  intros Hn Hd. unfold quotient_fields, mul64. by rewrite !wrap_id.
Qed.

(** C2, bounded form: the compound operators store the cross-multiplied
    fields and normalize them ([/=] on two distinct objects); when the exact
    numerator and denominator of that result fit in 64 bits (for [/=] and
    [/], together with their negations), the compound and the binary
    operator give the object in lowest terms whose value is the exact sum,
    difference, product or quotient; and the four examples of the test
    program evaluate to equal objects. *)
Theorem arithmetic_exact_bounded (this other : loc) (a b : rational) (h : heap) :
  h !! this = Some a -> h !! other = Some b -> valid a -> valid b ->
  let p := fresh (dom h) in
  (op_add_assign this other h = finish this (sum_fields a b) h
   /\ op_subtract_assign this other h = finish this (difference_fields a b) h
   /\ op_multiply_assign this other h = finish this (product_fields a b) h
   /\ (this <> other -> num b <> 0 ->
       op_divide_assign this other h = finish this (quotient_fields a b) h))
  /\ (int64 (num a * denom b + denom a * num b) ->
      int64 (denom a * denom b) ->
      exists r,
        op_add_assign this other h = Ret this (<[this := r]> h)
        /\ op_add this other h = Ret p (<[p := r]> h)
        /\ valid r /\ Qvalue r == Qvalue a + Qvalue b)
  /\ (int64 (num a * denom b - denom a * num b) ->
      int64 (denom a * denom b) ->
      exists r,
        op_subtract_assign this other h = Ret this (<[this := r]> h)
        /\ op_subtract this other h = Ret p (<[p := r]> h)
        /\ valid r /\ Qvalue r == Qvalue a - Qvalue b)
  /\ (int64 (num a * num b) -> int64 (denom a * denom b) ->
      exists r,
        op_multiply_assign this other h = Ret this (<[this := r]> h)
        /\ op_multiply this other h = Ret p (<[p := r]> h)
        /\ valid r /\ Qvalue r == Qvalue a * Qvalue b)
  /\ (num b <> 0 ->
      signed_fits (num a * denom b) -> signed_fits (denom a * num b) ->
      exists r,
        (this <> other ->
         op_divide_assign this other h = Ret this (<[this := r]> h))
        /\ op_divide this other h = Ret p (<[p := r]> h)
        /\ valid r /\ Qvalue r == Qvalue a / Qvalue b)
  /\ (value_of (binary_equals op_add 2 (-4) 8 6 5 6 ∅) = Some true
      /\ value_of (binary_equals op_subtract 2 (-4) 8 6 (-11) 6 ∅) = Some true
      /\ value_of (binary_equals op_multiply 11 (-4) (-12) 1 33 1 ∅)
         = Some true
      /\ value_of (binary_equals op_divide (-16) 5 4 (-9) 36 5 ∅) = Some true).
Proof.
  intros Ha Hb Hva Hvb p.
  destruct (valid_pos a Hva) as [Hda _], (valid_pos b Hvb) as [Hdb _].
  split_and!.
  - by apply op_add_assign_run.
  - by apply op_subtract_assign_run.
  - by apply op_multiply_assign_run.
  - intros. by apply op_divide_assign_run.
  - intros Hn Hd.
    destruct (simplified_exact _ _ Hn Hd) as (r & Hr & Hv & Hval);
      [nia|left; nia|].
    destruct (valid_pos r Hv) as [Hdr _].
    exists r. rewrite (op_add_assign_run _ _ a b), (op_add_run _ _ a b) by done.
    rewrite sum_fields_exact by done. unfold finish. rewrite Hr.
    split_and!; [done..|]. by apply Qvalue_sum.
  - intros Hn Hd.
    destruct (simplified_exact _ _ Hn Hd) as (r & Hr & Hv & Hval);
      [nia|left; nia|].
    destruct (valid_pos r Hv) as [Hdr _].
    exists r.
    rewrite (op_subtract_assign_run _ _ a b), (op_subtract_run _ _ a b) by done.
    rewrite difference_fields_exact by done. unfold finish. rewrite Hr.
    split_and!; [done..|]. by apply Qvalue_difference.
  - intros Hn Hd.
    destruct (simplified_exact _ _ Hn Hd) as (r & Hr & Hv & Hval);
      [nia|left; nia|].
    destruct (valid_pos r Hv) as [Hdr _].
    exists r.
    rewrite (op_multiply_assign_run _ _ a b), (op_multiply_run _ _ a b) by done.
    rewrite product_fields_exact by done. unfold finish. rewrite Hr.
    split_and!; [done..|]. by apply Qvalue_product.
  - intros Hz Hn Hd.
    destruct (simplified_exact (num a * denom b) (denom a * num b))
      as (r & Hr & Hv & Hval); [apply Hn|apply Hd|nia|by right|].
    destruct (valid_pos r Hv) as [Hdr _].
    exists r. rewrite (op_divide_run _ _ a b) by done.
    rewrite quotient_fields_exact by (apply Hn || apply Hd).
    unfold finish. rewrite Hr. split_and!; [|done..|by apply Qvalue_quotient].
    intros Hne. rewrite (op_divide_assign_run _ _ a b) by done.
    rewrite quotient_fields_exact by (apply Hn || apply Hd).
    unfold finish. by rewrite Hr.
  - vm_compute. reflexivity.
  - vm_compute. reflexivity.
  - vm_compute. reflexivity.
  - vm_compute. reflexivity.
Qed.

(** [-1/2 + 4/3] and [-1/2 / 4/3]. *)
Lemma arithmetic_exact_bounded_witness :
  let a := mk_rational (-1) 2 in
  let b := mk_rational 4 3 in
  let h : heap := <[0%nat := a]> (<[1%nat := b]> ∅) in
  (exists r, op_add_assign 0%nat 1%nat h = Ret 0%nat (<[0%nat := r]> h)
             /\ op_add 0%nat 1%nat h = Ret (fresh (dom h)) (<[fresh (dom h) := r]> h)
             /\ valid r /\ Qvalue r == Qvalue a + Qvalue b)
  /\ (exists r, (0%nat <> 1%nat ->
                 op_divide_assign 0%nat 1%nat h = Ret 0%nat (<[0%nat := r]> h))
                /\ op_divide 0%nat 1%nat h
                   = Ret (fresh (dom h)) (<[fresh (dom h) := r]> h)
                /\ valid r /\ Qvalue r == Qvalue a / Qvalue b).
Proof.
  intros a b h.
  assert (valid a) as Hva
    by (repeat split; cbn; unfold INT64_MIN, INT64_MAX; lia).
  assert (valid b) as Hvb
    by (repeat split; cbn; unfold INT64_MIN, INT64_MAX; lia).
  destruct (arithmetic_exact_bounded 0%nat 1%nat a b h eq_refl eq_refl Hva Hvb)
    as (_ & Hadd & _ & _ & Hdiv & _).
  split.
  - apply Hadd; cbn; unfold int64, INT64_MIN, INT64_MAX; lia.
  - apply Hdiv; cbn; unfold signed_fits, int64, INT64_MIN, INT64_MAX; lia.
Defined.

(** Beyond the bounds: the sum of [1/(2^32+1)] with itself is stored as
    [(2^33+2)/(2^33+1)]; and an object divided by itself, [2/3 /= 2/3], is
    left as [1/3]. *)
Lemma arithmetic_exact_counterexample :
  let a := mk_rational 1 (2 ^ 32 + 1) in
  let h : heap := <[0%nat := a]> (<[1%nat := a]> ∅) in
  let c := mk_rational 2 3 in
  let h' : heap := <[0%nat := c]> ∅ in
  (valid a
   /\ op_add_assign 0%nat 1%nat h
      = Ret 0%nat (<[0%nat := mk_rational (2 ^ 33 + 2) (2 ^ 33 + 1)]> h)
   /\ op_add 0%nat 1%nat h
      = Ret 2%nat (<[2%nat := mk_rational (2 ^ 33 + 2) (2 ^ 33 + 1)]> h)
   /\ ~ Qvalue (mk_rational (2 ^ 33 + 2) (2 ^ 33 + 1)) == Qvalue a + Qvalue a)
  /\ (valid c
      /\ op_divide_assign 0%nat 0%nat h'
         = Ret 0%nat (<[0%nat := mk_rational 1 3]> h')
      /\ ~ Qvalue (mk_rational 1 3) == Qvalue c / Qvalue c).
Proof.
  cbv zeta. split_and!.
  - repeat split; cbn [num denom]; unfold INT64_MIN, INT64_MAX; lia.
  - vm_compute. reflexivity.
  - vm_compute. reflexivity.
  - vm_compute. discriminate.
  - repeat split; cbn [num denom]; unfold INT64_MIN, INT64_MAX; lia.
  - vm_compute. reflexivity.
  - vm_compute. discriminate.
Qed.

(** ** Increment and decrement *)

Lemma Qvalue_succ (r : rational) :
  0 < denom r ->
  Qvalue (mk_rational (num r + denom r) (denom r)) == Qvalue r + 1.
Proof.
  intros Hr. unfold Qvalue, Qeq, Qplus; cbn [Qnum Qden num denom].
  rewrite Pos2Z.inj_mul, !Z2Pos.id by done. lia.
Qed.

Lemma Qvalue_pred (r : rational) :
  0 < denom r ->
  Qvalue (mk_rational (num r - denom r) (denom r)) == Qvalue r - 1.
Proof.
  intros Hr. unfold Qvalue, Qeq, Qminus, Qplus, Qopp; cbn [Qnum Qden num denom].
  rewrite Pos2Z.inj_mul, !Z2Pos.id by done. lia.
Qed.

(** C7, bounded form: the prefix forms add (subtract) [|denominator|] to the
    numerator and nothing else.  When numerator plus denominator fits in 64
    bits, [r++] returns an object with the fields [r] had, and leaves in [r]
    the fields numerator + denominator over denominator, which are in lowest
    terms and have the value of [r] plus 1; symmetrically for [r--] when
    numerator minus denominator fits.  [rational(-4, 7)++] returns -4/7 and
    leaves 3/7. *)
Theorem increment_decrement_bounded (this : loc) (r : rational) (h : heap) :
  h !! this = Some r -> valid r ->
  let old := fresh (dom h) in
  (op_pre_increment this h
   = Ret this
       (<[this := mk_rational (add64 (num r) (abs64 (denom r))) (denom r)]> h)
   /\ op_pre_decrement this h
      = Ret this
          (<[this := mk_rational (sub64 (num r) (abs64 (denom r))) (denom r)]> h))
  /\ (int64 (num r + denom r) ->
      let r' := mk_rational (num r + denom r) (denom r) in
      op_pre_increment this h = Ret this (<[this := r']> h)
      /\ (exists h', op_post_increment this h = Ret old h'
                     /\ h' !! old = Some r /\ h' !! this = Some r')
      /\ valid r' /\ Qvalue r' == Qvalue r + 1)
  /\ (int64 (num r - denom r) ->
      let r' := mk_rational (num r - denom r) (denom r) in
      op_pre_decrement this h = Ret this (<[this := r']> h)
      /\ (exists h', op_post_decrement this h = Ret old h'
                     /\ h' !! old = Some r /\ h' !! this = Some r')
      /\ valid r' /\ Qvalue r' == Qvalue r - 1)
  /\ (value_of (postfix_test op_post_increment (-4) 7 ∅)
      = Some (mk_rational (-4) 7, mk_rational 3 7)
      /\ value_of (postfix_test op_post_decrement (-4) 7 ∅)
         = Some (mk_rational (-4) 7, mk_rational (-11) 7)).
Proof.
  intros Hr Hv old.
  assert (old <> this) as Hne by by eapply fresh_ne.
  destruct (valid_pos r Hv) as [Hpos _].
  split_and!.
  - by apply op_pre_increment_run.
  - by apply op_pre_decrement_run.
  - intros Hfit r'. destruct (increment_valid r Hv Hfit) as [E Hv'].
    rewrite (op_pre_increment_run _ r), (op_post_increment_run _ r), E by done.
    split_and!; [done| |done|by apply Qvalue_succ].
    eexists. split; [reflexivity|]. by lookups.
  - intros Hfit r'. destruct (decrement_valid r Hv Hfit) as [E Hv'].
    rewrite (op_pre_decrement_run _ r), (op_post_decrement_run _ r), E by done.
    split_and!; [done| |done|by apply Qvalue_pred].
    eexists. split; [reflexivity|]. by lookups.
  - vm_compute. reflexivity.
  - vm_compute. reflexivity.
Qed.

(** [-4/7], incremented and decremented. *)
Lemma increment_decrement_bounded_witness :
  let r := mk_rational (-4) 7 in
  let h : heap := <[0%nat := r]> ∅ in
  (exists h', op_post_increment 0%nat h = Ret (fresh (dom h)) h'
              /\ h' !! fresh (dom h) = Some r
              /\ h' !! 0%nat = Some (mk_rational 3 7))
  /\ (exists h', op_post_decrement 0%nat h = Ret (fresh (dom h)) h'
                 /\ h' !! fresh (dom h) = Some r
                 /\ h' !! 0%nat = Some (mk_rational (-11) 7)).
Proof.
  intros r h.
  assert (valid r) as Hv
    by (repeat split; cbn; unfold INT64_MIN, INT64_MAX; lia).
  destruct (increment_decrement_bounded 0%nat r h eq_refl Hv)
    as (_ & Hinc & Hdec & _).
  split.
  - apply Hinc. cbn. unfold int64, INT64_MIN, INT64_MAX; lia.
  - apply Hdec. cbn. unfold int64, INT64_MIN, INT64_MAX; lia.
Defined.

(** Beyond the bounds: [INT64_MAX/3] incremented is [(INT64_MIN+2)/3], whose
    fields have the common factor 3. *)
Lemma increment_counterexample :
  let r := mk_rational INT64_MAX 3 in
  let r' := mk_rational (INT64_MIN + 2) 3 in
  let h : heap := <[0%nat := r]> ∅ in
  valid r
  /\ op_post_increment 0%nat h = Ret 1%nat (<[0%nat := r']> (<[1%nat := r]> h))
  /\ ~ Qvalue r' == Qvalue r + 1
  /\ ~ normalized r'.
Proof.
  cbv zeta. split_and!.
  - repeat split; cbn [num denom]; unfold INT64_MIN, INT64_MAX; lia.
  - vm_compute. reflexivity.
  - vm_compute. discriminate.
  - intros [_ Hg]. vm_compute in Hg. discriminate.
Qed.

(** ** Unary plus and minus *)

(** C8, bounded form: for an object [a] that satisfies the invariant and
    whose numerator is not [INT64_MIN], unary plus returns a new object
    [|numerator|/denominator], the absolute value of [a], and unary minus a
    new object [-numerator/denominator], its additive inverse. *)
Theorem unary_bounded (this : loc) (a : rational) (h : heap) :
  h !! this = Some a -> valid a -> num a <> INT64_MIN ->
  let p := fresh (dom h) in
  op_positive this h
  = Ret p (<[p := mk_rational (Z.abs (num a)) (denom a)]> h)
  /\ op_negative this h = Ret p (<[p := mk_rational (- num a) (denom a)]> h)
  /\ Qvalue (mk_rational (Z.abs (num a)) (denom a)) == Qabs (Qvalue a)
  /\ Qvalue (mk_rational (- num a) (denom a)) == - Qvalue a.
Proof.
  intros Ha [[Hn Hd] [Hpos Hg]] Hmin p.
  split_and!.
  - rewrite (op_positive_run _ a) by done.
    rewrite !abs64_abs by (done || (range; lia)).
    rewrite (Z.abs_eq (denom a)) by lia.
    rewrite construct_num_denom_run by lia.
    apply finish_idempotent. split; [split|split]; cbn [num denom].
    + range. lia.
    + done.
    + done.
    + by rewrite Z.abs_idemp.
  - rewrite (op_negative_run _ a) by done.
    rewrite neg64_opp by done.
    rewrite construct_num_denom_run by lia.
    apply finish_idempotent. split; [split|split]; cbn [num denom].
    + range. lia.
    + done.
    + done.
    + by rewrite Z.abs_opp.
  - reflexivity.
  - reflexivity.
Qed.

(** [+(-8/5)] and [-(-8/5)]. *)
Lemma unary_bounded_witness :
  let a := mk_rational (-8) 5 in
  let h : heap := <[0%nat := a]> ∅ in
  op_positive 0%nat h
  = Ret (fresh (dom h)) (<[fresh (dom h) := mk_rational 8 5]> h)
  /\ op_negative 0%nat h
     = Ret (fresh (dom h)) (<[fresh (dom h) := mk_rational 8 5]> h)
  /\ Qvalue (mk_rational 8 5) == Qabs (Qvalue a)
  /\ Qvalue (mk_rational 8 5) == - Qvalue a.
Proof.
  intros a h.
  apply (unary_bounded 0%nat a h eq_refl).
  - repeat split; cbn; unfold INT64_MIN, INT64_MAX; lia.
  - cbn. unfold INT64_MIN. lia.
Defined.

(** [rational(INT64_MIN)]: unary plus and unary minus both return
    [INT64_MIN/1]. *)
Lemma unary_counterexample :
  let a := mk_rational INT64_MIN 1 in
  let h : heap := <[0%nat := a]> ∅ in
  valid a
  /\ construct_integer INT64_MIN ∅ = Ret 0%nat h
  /\ op_positive 0%nat h = Ret 1%nat (<[1%nat := a]> h)
  /\ op_negative 0%nat h = Ret 1%nat (<[1%nat := a]> h)
  /\ ~ Qvalue a == Qabs (Qvalue a)
  /\ ~ Qvalue a == - Qvalue a.
Proof.
  cbv zeta. split_and!.
  - repeat split; cbn [num denom]; unfold INT64_MIN, INT64_MAX; lia.
  - vm_compute. reflexivity.
  - vm_compute. reflexivity.
  - vm_compute. reflexivity.
  - vm_compute. discriminate.
  - vm_compute. discriminate.
Qed.

(** ** Comparisons *)

Lemma op_less_swap (a b : rational) :
  op_less b a
  = let left_neg := xorb (num a <? 0) (denom a <? 0) in
    let right_neg := xorb (num b <? 0) (denom b <? 0) in
    if negb (Bool.eqb left_neg right_neg) then right_neg
    else
      let left_crit := abs64 (mul64 (num a) (denom b)) in
      let right_crit := abs64 (mul64 (denom a) (num b)) in
      if left_neg then right_crit >? left_crit else right_crit <? left_crit.
Proof.
  unfold op_less, mul64. cbv zeta.
  rewrite (Z.mul_comm (num b) (denom a)), (Z.mul_comm (denom b) (num a)).
  destruct (xorb (num a <? 0) (denom a <? 0)),
           (xorb (num b <? 0) (denom b <? 0)); reflexivity.
Qed.

(** For all [a] and [b], exactly one of [a < b], [a == b], [a > b] holds,
    and [a <= b] holds if and only if [a > b] does not. *)
Theorem ordering_trichotomy (a b : rational) :
  ((op_less a b = true /\ op_equality a b = false /\ op_greater a b = false)
   \/ (op_less a b = false /\ op_equality a b = true /\ op_greater a b = false)
   \/ (op_less a b = false /\ op_equality a b = false /\ op_greater a b = true))
  /\ (op_less_equal a b = true <-> op_greater a b = false)
  /\ op_less_equal a b = negb (op_greater a b).
Proof.
  split; [|split; [unfold op_less_equal; by destruct (op_greater a b)|done]].
  unfold op_greater. rewrite (op_less_swap a b). unfold op_less, op_equality.
  cbv zeta. rewrite !Z.gtb_ltb.
  destruct (xorb (num a <? 0) (denom a <? 0)),
           (xorb (num b <? 0) (denom b <? 0)); cbn [Bool.eqb negb]; auto;
    destruct (Z.ltb_spec (abs64 (mul64 (num a) (denom b)))
                         (abs64 (mul64 (denom a) (num b)))),
             (Z.ltb_spec (abs64 (mul64 (denom a) (num b)))
                         (abs64 (mul64 (num a) (denom b)))),
             (Z.eqb_spec (abs64 (mul64 (num a) (denom b)))
                         (abs64 (mul64 (denom a) (num b))));
    try (exfalso; lia); cbn; auto 10.
Qed.

Lemma op_equality_refl (a : rational) : op_equality a a = true.
Proof.
  unfold op_equality, mul64. cbv zeta.
  rewrite Bool.eqb_reflx; cbn [negb].
  rewrite (Z.mul_comm (denom a) (num a)). apply Z.eqb_refl.
Qed.

Lemma op_equality_sym (a b : rational) : op_equality a b = op_equality b a.
Proof.
  unfold op_equality, mul64. cbv zeta.
  rewrite (Z.mul_comm (num b) (denom a)), (Z.mul_comm (denom b) (num a)).
  rewrite (Z.eqb_sym (abs64 (wrap (denom a * num b)))).
  destruct (xorb (num a <? 0) (denom a <? 0)),
           (xorb (num b <? 0) (denom b <? 0)); reflexivity.
Qed.

Lemma abs64_eq_same_sign (x y : Z) :
  int64 x -> int64 y -> abs64 x = abs64 y -> (x < 0 <-> y < 0) -> x = y.
Proof.
  intros Hx Hy E Hs.
  destruct (decide (x = INT64_MIN)) as [->|Hxm],
           (decide (y = INT64_MIN)) as [->|Hym]; [done| | |].
  - rewrite abs64_MIN, abs64_abs in E by done. range. lia.
  - rewrite abs64_MIN, abs64_abs in E by done. range. lia.
  - rewrite !abs64_abs in E by done. lia.
Qed.

(** C10, bounded form: for [a] and [b] that satisfy the invariant and whose
    two cross products fit in 64 bits, [a == b] is true if and only if the
    numerators are equal and the denominators are equal. *)
Theorem equality_structural_bounded (a b : rational) :
  valid a -> valid b ->
  int64 (num a * denom b) -> int64 (denom a * num b) ->
  op_equality a b = true <-> num a = num b /\ denom a = denom b.
Proof.
  intros Hva Hvb HX HY. split.
  - unfold op_equality, mul64. cbv zeta. rewrite !wrap_id by done.
    destruct (valid_pos a Hva) as [Hda _], (valid_pos b Hvb) as [Hdb _].
    assert ((denom a <? 0) = false) as -> by lia.
    assert ((denom b <? 0) = false) as -> by lia.
    rewrite !xorb_false_r.
    destruct (Z.ltb_spec (num a) 0), (Z.ltb_spec (num b) 0);
      cbn [Bool.eqb negb]; try done; intros E%Z.eqb_eq.
    + apply abs64_eq_same_sign in E; [|done|done|nia].
      assert (a = b) as -> by (apply valid_unique; [apply Hva|apply Hvb|lia]).
      done.
    + apply abs64_eq_same_sign in E; [|done|done|nia].
      assert (a = b) as -> by (apply valid_unique; [apply Hva|apply Hvb|lia]).
      done.
  - intros [En Ed]. destruct a, b; cbn [num denom] in *; subst.
    apply op_equality_refl.
Qed.

(** [-8/3] and itself. *)
Lemma equality_structural_bounded_witness :
  op_equality (mk_rational (-8) 3) (mk_rational (-8) 3) = true
  <-> -8 = -8 /\ 3 = 3.
Proof.
  apply (equality_structural_bounded (mk_rational (-8) 3) (mk_rational (-8) 3)).
  - repeat split; cbn; unfold INT64_MIN, INT64_MAX; lia.
  - repeat split; cbn; unfold INT64_MIN, INT64_MAX; lia.
  - cbn. unfold int64, INT64_MIN, INT64_MAX; lia.
  - cbn. unfold int64, INT64_MIN, INT64_MAX; lia.
Defined.

(** Beyond the bounds: [2^32/3 == 2^32/(2^32+3)], both cross products being
    [3 * 2^32] modulo 2^64. *)
Lemma equality_structural_counterexample :
  let a := mk_rational (2 ^ 32) 3 in
  let b := mk_rational (2 ^ 32) (2 ^ 32 + 3) in
  valid a /\ valid b /\ op_equality a b = true /\ denom a <> denom b.
Proof.
  cbv zeta. split_and!.
  - repeat split; cbn [num denom]; unfold INT64_MIN, INT64_MAX; lia.
  - repeat split; cbn [num denom]; unfold INT64_MIN, INT64_MAX; lia.
  - vm_compute. reflexivity.
  - cbn [denom]. lia.
Qed.

(** Equality of [abs64 (mul64 _ _)] is congruence up to sign modulo 2^64. *)

Lemma wrap_shift (x : Z) : exists k, wrap x = x + k * 2 ^ 64.
Proof.
  exists (- ((x + 2 ^ 63) / 2 ^ 64)). unfold wrap.
  rewrite Z.mod_eq by lia. lia.
Qed.

Lemma wrap_of_divide (x y : Z) : (2 ^ 64 | x - y) -> wrap x = wrap y.
Proof.
  intros [k Hk]. unfold wrap. f_equal.
  replace (x + 2 ^ 63) with (y + 2 ^ 63 + k * 2 ^ 64) by lia.
  apply Z_mod_plus_full.
Qed.

Lemma abs64_cases (x y : Z) :
  int64 x -> int64 y -> abs64 x = abs64 y -> x = y \/ x = - y.
Proof.
  intros Hx Hy E.
  destruct (decide (x = INT64_MIN)) as [->|Hxm],
           (decide (y = INT64_MIN)) as [->|Hym]; [by left| | |].
  - rewrite abs64_MIN, abs64_abs in E by done. range. lia.
  - rewrite abs64_MIN, abs64_abs in E by done. range. lia.
  - rewrite !abs64_abs in E by done. lia.
Qed.

Lemma abs64_neg64 (x : Z) : int64 x -> abs64 (neg64 x) = abs64 x.
Proof.
  intros Hx. destruct (decide (x = INT64_MIN)) as [->|Hm]; [done|].
  rewrite neg64_opp by done. rewrite !abs64_abs; [lia|done..| |].
  - range. lia.
  - range. lia.
Qed.

Lemma abs64_wrap_congruent (x y : Z) :
  abs64 (wrap x) = abs64 (wrap y) <->
  (2 ^ 64 | x - y) \/ (2 ^ 64 | x + y).
Proof.
  split.
  - intros E. destruct (wrap_shift x) as [k Hk], (wrap_shift y) as [j Hj].
    apply abs64_cases in E; [|apply wrap_int64..].
    destruct E as [E|E]; [left; exists (j - k)|right; exists (- j - k)]; lia.
  - intros [H|H].
    + by rewrite (wrap_of_divide x y).
    + rewrite (wrap_of_divide x (- y)) by (by rewrite Z.sub_opp_r).
      assert (wrap (- y) = neg64 (wrap y)) as ->.
      { unfold neg64. apply wrap_of_divide.
        destruct (wrap_shift y) as [j ->]. exists j. lia. }
      apply abs64_neg64, wrap_int64.
Qed.

Lemma odd_coprime_pow (k r : Z) :
  0 <= k -> Z.odd r = true -> Z.gcd (2 ^ k) r = 1.
Proof.
  intros Hk Ho. rewrite Z.gcd_comm.
  apply (Z.coprime_pow_r r 2 k); [done|].
  symmetry. apply Z.coprime_prime_l; [apply Z.prime_2|].
  intros [i ->]. rewrite Z.mul_comm, Z.odd_mul in Ho. done.
Qed.

Lemma odd_coprime (r : Z) : Z.odd r = true -> Z.gcd (2 ^ 64) r = 1.
Proof. by apply odd_coprime_pow. Qed.

Lemma coprime_one_odd (r s : Z) :
  Z.gcd r s = 1 -> Z.odd r = true \/ Z.odd s = true.
Proof.
  intros Hg. destruct (Z.odd r) eqn:Hr; [by left|right].
  destruct (Z.odd s) eqn:Hs; [done|exfalso].
  rewrite <- Z.negb_even in Hr, Hs.
  apply negb_false_iff, Z.even_spec in Hr, Hs.
  destruct Hr as [i ->], Hs as [j ->].
  assert ((2 | Z.gcd (2 * i) (2 * j))) as Hdiv
    by (apply Z.gcd_greatest; [exists i|exists j]; lia).
  rewrite Hg in Hdiv. destruct Hdiv as [q Hq]. lia.
Qed.

(** The cross products of [a], [c] agree up to sign when those of [a], [b]
    and of [b], [c] do and one field of [b] is odd. *)
Lemma cross_transitive (p q r s t u : Z) :
  Z.odd r = true \/ Z.odd s = true ->
  (2 ^ 64 | p * s - q * r) \/ (2 ^ 64 | p * s + q * r) ->
  (2 ^ 64 | r * u - s * t) \/ (2 ^ 64 | r * u + s * t) ->
  (2 ^ 64 | p * u - q * t) \/ (2 ^ 64 | p * u + q * t).
Proof.
  intros Hodd H1 H2.
  assert (forall e1 e2 : Z,
             (2 ^ 64 | p * s - e1 * (q * r)) ->
             (2 ^ 64 | r * u - e2 * (s * t)) ->
             (2 ^ 64 | p * u - e1 * e2 * (q * t))) as Hmain.
  { intros e1 e2 D1 D2. destruct Hodd as [Hr|Hs].
    - apply (Z.gauss _ r); [|by apply odd_coprime].
      replace (r * (p * u - e1 * e2 * (q * t)))
        with (p * (r * u - e2 * (s * t)) + e2 * t * (p * s - e1 * (q * r)))
        by ring.
      apply Z.divide_add_r; by apply Z.divide_mul_r.
    - apply (Z.gauss _ s); [|by apply odd_coprime].
      replace (s * (p * u - e1 * e2 * (q * t)))
        with (u * (p * s - e1 * (q * r)) + e1 * q * (r * u - e2 * (s * t)))
        by ring.
      apply Z.divide_add_r; by apply Z.divide_mul_r. }
  destruct H1 as [H1|H1], H2 as [H2|H2].
  - left. specialize (Hmain 1 1).
    replace (p * u - q * t) with (p * u - 1 * 1 * (q * t)) by ring.
    apply Hmain; [by replace (p * s - 1 * (q * r)) with (p * s - q * r) by ring
                 |by replace (r * u - 1 * (s * t)) with (r * u - s * t) by ring].
  - right. specialize (Hmain 1 (-1)).
    replace (p * u + q * t) with (p * u - 1 * -1 * (q * t)) by ring.
    apply Hmain; [by replace (p * s - 1 * (q * r)) with (p * s - q * r) by ring
                 |by replace (r * u - -1 * (s * t)) with (r * u + s * t) by ring].
  - right. specialize (Hmain (-1) 1).
    replace (p * u + q * t) with (p * u - -1 * 1 * (q * t)) by ring.
    apply Hmain; [by replace (p * s - -1 * (q * r)) with (p * s + q * r) by ring
                 |by replace (r * u - 1 * (s * t)) with (r * u - s * t) by ring].
  - left. specialize (Hmain (-1) (-1)).
    replace (p * u - q * t) with (p * u - -1 * -1 * (q * t)) by ring.
    apply Hmain; [by replace (p * s - -1 * (q * r)) with (p * s + q * r) by ring
                 |by replace (r * u - -1 * (s * t)) with (r * u + s * t) by ring].
Qed.

Lemma op_equality_spec (a b : rational) :
  op_equality a b = true <->
  xorb (num a <? 0) (denom a <? 0) = xorb (num b <? 0) (denom b <? 0)
  /\ ((2 ^ 64 | num a * denom b - denom a * num b)
      \/ (2 ^ 64 | num a * denom b + denom a * num b)).
Proof.
  unfold op_equality, mul64. cbv zeta.
  rewrite <- abs64_wrap_congruent.
  destruct (xorb (num a <? 0) (denom a <? 0)),
           (xorb (num b <? 0) (denom b <? 0)); cbn [Bool.eqb negb];
    rewrite ?Z.eqb_eq; intuition congruence.
Qed.

Lemma op_equality_trans (a b c : rational) :
  Z.gcd (num b) (denom b) = 1 ->
  op_equality a b = true -> op_equality b c = true -> op_equality a c = true.
Proof.
  intros Hg [S1 K1]%op_equality_spec [S2 K2]%op_equality_spec.
  apply op_equality_spec. split; [congruence|].
  apply (cross_transitive _ (denom a) (num b) (denom b) (num c) _).
  - by apply coprime_one_odd.
  - done.
  - done.
Qed.

(** ** The same number from different pairs *)

Lemma exceptional_unique (n1 d1 n2 d2 : Z) :
  int64 n1 -> int64 d1 -> int64 n2 -> int64 d2 ->
  d1 <> 0 -> d2 <> 0 -> n1 * d2 = n2 * d1 ->
  exceptional n1 d1 -> n2 = n1 /\ d2 = d1.
Proof.
  intros Hn1 Hd1 Hn2 Hd2 Hz1 Hz2 E [[-> Ho]|(-> & Hneg & Ho)].
  - assert ((2 ^ 63 | d2)) as [k Hk].
    { apply (Z.gauss _ n1); [|by apply odd_coprime_pow].
      exists (- n2). rewrite E. unfold INT64_MIN. ring. }
    assert (d2 = INT64_MIN) as -> by (range; lia).
    split; [|done]. unfold INT64_MIN in E. lia.
  - assert ((2 ^ 63 | n2)) as [k Hk].
    { apply (Z.gauss _ d1); [|by apply odd_coprime_pow].
      exists (- d2). rewrite Z.mul_comm, <- E. unfold INT64_MIN. ring. }
    assert (n2 = 0 \/ n2 = INT64_MIN) as [->| ->] by (range; lia).
    + unfold INT64_MIN in E. lia.
    + split; [done|]. unfold INT64_MIN in E. lia.
Qed.

Lemma simplified_same_value (n1 d1 n2 d2 : Z) :
  int64 n1 -> int64 d1 -> int64 n2 -> int64 d2 ->
  d1 <> 0 -> d2 <> 0 -> n1 * d2 = n2 * d1 ->
  exists r1 r2,
    simplified (mk_rational n1 d1) = Some r1
    /\ simplified (mk_rational n2 d2) = Some r2
    /\ op_equality r1 r2 = true.
Proof.
  intros Hn1 Hd1 Hn2 Hd2 Hz1 Hz2 E.
  destruct (simplified_spec n1 d1 Hn1 Hd1 Hz1)
    as (r1 & Hr1 & _ & _ & Hg1 & Hpos1 & Hval1).
  destruct (simplified_spec n2 d2 Hn2 Hd2 Hz2)
    as (r2 & Hr2 & _ & _ & Hg2 & Hpos2 & Hval2).
  exists r1, r2. split_and!; [done..|].
  destruct (decide (exceptional n1 d1)) as [Hx1|Hx1].
  { destruct (exceptional_unique n1 d1 n2 d2) as [-> ->]; [done..|].
    assert (r1 = r2) as -> by congruence. apply op_equality_refl. }
  destruct (decide (exceptional n2 d2)) as [Hx2|Hx2].
  { destruct (exceptional_unique n2 d2 n1 d1) as [-> ->]; [done..| |done|].
    { lia. }
    assert (r1 = r2) as -> by congruence. apply op_equality_refl. }
  unfold exceptional in *.
  assert (r1 = r2) as ->; [|apply op_equality_refl].
  apply valid_unique.
  - apply normalized_gcd. split; [apply Hpos1; tauto|done].
  - apply normalized_gcd. split; [apply Hpos2; tauto|done].
  - assert (num r1 * d1 = n1 * denom r1) as V1 by (apply Hval1; tauto).
    assert (num r2 * d2 = n2 * denom r2) as V2 by (apply Hval2; tauto).
    apply (Z.mul_reg_r _ _ (d1 * d2)); [nia|].
    transitivity (n1 * d2 * (denom r1 * denom r2)).
    + rewrite <- (Z.mul_assoc (num r1)), (Z.mul_comm (denom r2)).
      rewrite !Z.mul_assoc, V1. ring.
    + rewrite E. 
      replace (num r2 * denom r1 * (d1 * d2))
        with (num r2 * d2 * (denom r1 * d1)) by ring.
      rewrite V2. ring.
Qed.

Lemma equality_test_run (n1 d1 n2 d2 : Z) (r1 r2 : rational) (h : heap) :
  d1 <> 0 -> d2 <> 0 ->
  simplified (mk_rational n1 d1) = Some r1 ->
  simplified (mk_rational n2 d2) = Some r2 ->
  exists h', equality_test n1 d1 n2 d2 h = Ret (op_equality r1 r2) h'.
Proof.
  intros Hz1 Hz2 Hr1 Hr2. unfold equality_test.
  unfold bind at 1. rewrite construct_num_denom_run by done.
  unfold finish. rewrite Hr1.
  unfold bind at 1. rewrite construct_num_denom_run by done.
  unfold finish. rewrite Hr2.
  assert (fresh (dom (<[fresh (dom h) := r1]> h)) <> fresh (dom h)) as Hne
    by (apply (fresh_ne _ _ r1), lookup_insert_eq).
  eexists. unfold compare. run. reflexivity.
Qed.

(** C6: [==] is reflexive and symmetric, and transitive through any object
    that satisfies the invariant; two objects constructed from pairs
    [(n1, d1)] and [(n2, d2)] of the same quotient, [n1 * d2 = n2 * d1], compare
    equal; [rational(160, -60) == rational(-16, 6)]. *)
Theorem equality_equivalence :
  (forall a, op_equality a a = true)
  /\ (forall a b, op_equality a b = op_equality b a)
  /\ (forall a b c,
        valid b ->
        op_equality a b = true -> op_equality b c = true ->
        op_equality a c = true)
  /\ (forall n1 d1 n2 d2 h,
        int64 n1 -> int64 d1 -> int64 n2 -> int64 d2 ->
        d1 <> 0 -> d2 <> 0 -> n1 * d2 = n2 * d1 ->
        exists h', equality_test n1 d1 n2 d2 h = Ret true h')
  /\ value_of (equality_test 160 (-60) (-16) 6 ∅) = Some true.
Proof.
  split_and!.
  - apply op_equality_refl.
  - apply op_equality_sym.
  - intros a b c [_ [_ Hg]%normalized_gcd]. by apply op_equality_trans.
  - intros n1 d1 n2 d2 h Hn1 Hd1 Hn2 Hd2 Hz1 Hz2 E.
    destruct (simplified_same_value n1 d1 n2 d2) as (r1 & r2 & Hr1 & Hr2 & <-);
      [done..|].
    by apply equality_test_run.
  - vm_compute. reflexivity.
Qed.

(** [-8/3] three times, and [160/-60] against [-16/6]. *)
Lemma equality_equivalence_witness :
  (op_equality (mk_rational (-8) 3) (mk_rational (-8) 3) = true)
  /\ (exists h', equality_test 160 (-60) (-16) 6 ∅ = Ret true h').
Proof.
  destruct equality_equivalence as (Hrefl & _ & Htrans & Hsame & _).
  split.
  - apply (Htrans _ (mk_rational (-8) 3)).
    + repeat split; cbn; unfold INT64_MIN, INT64_MAX; lia.
    + apply Hrefl.
    + apply Hrefl.
  - apply Hsame; unfold int64, INT64_MIN, INT64_MAX; lia.
Defined.

(** With cross products that fit, [<] is the order of the quotients. *)
Lemma op_less_exact (a b : rational) :
  valid a -> valid b ->
  signed_fits (num a * denom b) -> signed_fits (denom a * num b) ->
  op_less a b = true <-> num a * denom b < denom a * num b.
Proof.
  intros Hva Hvb [HX HX'] [HY HY'].
  destruct (valid_pos a Hva) as [Hda _], (valid_pos b Hvb) as [Hdb _].
  unfold op_less, mul64. cbv zeta. rewrite !wrap_id by done.
  assert ((denom a <? 0) = false) as -> by lia.
  assert ((denom b <? 0) = false) as -> by lia.
  rewrite !xorb_false_r, !abs64_abs by (done || (range; lia)).
  destruct (Z.ltb_spec (num a) 0), (Z.ltb_spec (num b) 0);
    cbn [Bool.eqb negb]; rewrite ?Z.gtb_ltb, ?Z.ltb_lt; split; try done; nia.
Qed.

(** C5, bounded form: for all [a] and [b], exactly one of [a < b],
    [a == b], [a > b] holds, and [a <= b] holds if and only if [a > b] does
    not; and on objects that satisfy the invariant and whose cross products
    fit in 64 bits together with their negations the operators are those of
    a total order: [<] and [<=] are transitive. *)
Theorem ordering_total_bounded (a b c : rational) :
  ((op_less a b = true /\ op_equality a b = false /\ op_greater a b = false)
   \/ (op_less a b = false /\ op_equality a b = true /\ op_greater a b = false)
   \/ (op_less a b = false /\ op_equality a b = false /\ op_greater a b = true))
  /\ (op_less_equal a b = true <-> op_greater a b = false)
  /\ (valid a -> valid b -> valid c ->
      signed_fits (num a * denom b) -> signed_fits (denom a * num b) ->
      signed_fits (num b * denom c) -> signed_fits (denom b * num c) ->
      signed_fits (num a * denom c) -> signed_fits (denom a * num c) ->
      (op_less a b = true -> op_less b c = true -> op_less a c = true)
      /\ (op_less_equal a b = true -> op_less_equal b c = true ->
          op_less_equal a c = true)).
Proof.
  destruct (ordering_trichotomy a b) as (Htri & Hle & _).
  split; [done|]. split; [done|].
  intros Hva Hvb Hvc Hab Hab' Hbc Hbc' Hac Hac'.
  destruct (valid_pos a Hva) as [Hda _], (valid_pos b Hvb) as [Hdb _],
           (valid_pos c Hvc) as [Hdc _].
  assert (forall x y, valid x -> valid y ->
            signed_fits (num x * denom y) -> signed_fits (denom x * num y) ->
            op_less_equal x y = true <-> num x * denom y <= denom x * num y)
    as Hle_exact.
  { intros x y Hx Hy Hxy Hxy'. unfold op_less_equal, op_greater.
    rewrite negb_true_iff, <- not_true_iff_false.
    rewrite (op_less_exact y x Hy Hx)
      by (by rewrite Z.mul_comm). lia. }
  split.
  - rewrite !op_less_exact by done. intros H1 H2.
    assert (num a * denom c * denom b < denom a * num c * denom b) by nia.
    nia.
  - rewrite !Hle_exact by done. intros H1 H2.
    assert (num a * denom c * denom b <= denom a * num c * denom b) by nia.
    nia.
Qed.

(** [-8/3], [-5/2] and [1/7]. *)
Lemma ordering_total_bounded_witness :
  (op_less (mk_rational (-8) 3) (mk_rational (-5) 2) = true ->
   op_less (mk_rational (-5) 2) (mk_rational 1 7) = true ->
   op_less (mk_rational (-8) 3) (mk_rational 1 7) = true)
  /\ (op_less_equal (mk_rational (-8) 3) (mk_rational (-5) 2) = true ->
      op_less_equal (mk_rational (-5) 2) (mk_rational 1 7) = true ->
      op_less_equal (mk_rational (-8) 3) (mk_rational 1 7) = true).
Proof.
  destruct (ordering_total_bounded (mk_rational (-8) 3) (mk_rational (-5) 2)
              (mk_rational 1 7)) as (_ & _ & Htrans).
  apply Htrans;
    try (repeat split; cbn; unfold INT64_MIN, INT64_MAX; lia);
    cbn; unfold signed_fits, int64, INT64_MIN, INT64_MAX; lia.
Defined.

(** Beyond the bounds: [2^62/1 < 1/2] (the cross product [2^63] wraps) and
    [1/2 < 1/1], but not [2^62/1 < 1/1]; the same for [<=]. *)
Lemma ordering_transitivity_counterexample :
  let a := mk_rational (2 ^ 62) 1 in
  let b := mk_rational 1 2 in
  let c := mk_rational 1 1 in
  valid a /\ valid b /\ valid c
  /\ (op_less a b = true /\ op_less b c = true /\ op_less a c = false)
  /\ (op_less_equal a b = true /\ op_less_equal b c = true
      /\ op_less_equal a c = false).
Proof.
  cbv zeta. split_and!;
    try (repeat split; cbn [num denom]; unfold INT64_MIN, INT64_MAX; lia);
    vm_compute; reflexivity.
Qed.

(** X12: [<] is transitive on objects that satisfy the invariant when the
    cross products of the three pairs fit in 64 bits together with their
    negations. *)
Lemma op_less_transitive (a b c : rational) :
  valid a -> valid b -> valid c ->
  signed_fits (num a * denom b) -> signed_fits (denom a * num b) ->
  signed_fits (num b * denom c) -> signed_fits (denom b * num c) ->
  signed_fits (num a * denom c) -> signed_fits (denom a * num c) ->
  op_less a b = true -> op_less b c = true -> op_less a c = true.
Proof.
  intros Hva Hvb Hvc Hab Hab' Hbc Hbc' Hac Hac'.
  rewrite !op_less_exact by done. intros H1 H2.
  destruct (valid_pos a Hva) as [Hda _], (valid_pos b Hvb) as [Hdb _],
           (valid_pos c Hvc) as [Hdc _].
  assert (num a * denom c * denom b < denom a * num c * denom b) by nia.
  nia.
Qed.

(** * Further properties of the class *)

(** ** Construction *)

Lemma Qvalue_of_pair (r : rational) (n d : Z) :
  0 < denom r -> d <> 0 -> num r * d = n * denom r ->
  Qvalue r == inject_Z n / inject_Z d.
Proof.
  intros Hr Hd E.
  assert (~ inject_Z d == 0) as Hd0.
  { unfold Qeq, inject_Z; cbn [Qnum Qden]. lia. }
  assert (Qvalue r * inject_Z d == inject_Z n) as <-.
  { unfold Qvalue, Qeq, Qmult, inject_Z; cbn [Qnum Qden].
    rewrite Pos.mul_1_r, Z2Pos.id by done. lia. }
  symmetry. by apply Qdiv_mult_l.
Qed.

(** X1: the pair constructor keeps the quotient.  For 64-bit [n] and [d],
    [d] not zero, outside the two kinds of pair whose absolute values do not
    fit ([d = INT64_MIN] with [n] odd; [n = INT64_MIN] with [d] negative and
    odd), [rational(n, d)] returns an object in lowest terms with a positive
    denominator whose value is [n / d]. *)
Theorem construct_num_denom_exact (n d : Z) (h : heap) :
  int64 n -> int64 d -> d <> 0 -> ~ exceptional n d ->
  exists r,
    construct_num_denom n d h = Ret (fresh (dom h)) (<[fresh (dom h) := r]> h)
    /\ valid r /\ Qvalue r == inject_Z n / inject_Z d.
Proof.
  intros Hn Hd Hd0 Hx. unfold exceptional in Hx.
  destruct (simplified_spec n d Hn Hd Hd0)
    as (r & Hr & Hrn & Hrd & Hg & Hpos & Hval).
  exists r. rewrite construct_num_denom_run by done.
  unfold finish. rewrite Hr.
  assert (0 < denom r) by (apply Hpos; tauto).
  split_and!; [done| |].
  - split; [done|]. by apply normalized_gcd.
  - apply Qvalue_of_pair; [done..|]. apply Hval; tauto.
Qed.

Lemma construct_num_denom_exact_witness :
  exists r,
    construct_num_denom (-18) (-12) ∅ = Ret (fresh (dom (∅ : heap))) (<[fresh (dom (∅ : heap)) := r]> ∅)
    /\ valid r /\ Qvalue r == inject_Z (-18) / inject_Z (-12).
Proof.
  apply construct_num_denom_exact.
  - unfold int64, INT64_MIN, INT64_MAX. lia.
  - unfold int64, INT64_MIN, INT64_MAX. lia.
  - lia.
  - unfold exceptional, INT64_MIN. lia.
Defined.

(** X2: for every 64-bit [n] and every non-zero 64-bit [d],
    [rational(n, d)] returns: it neither throws nor divides by zero, and the
    fields it stores are coprime 64-bit numbers with a non-zero
    denominator. *)
Theorem construct_num_denom_returns (n d : Z) (h : heap) :
  int64 n -> int64 d -> d <> 0 ->
  exists r,
    construct_num_denom n d h = Ret (fresh (dom h)) (<[fresh (dom h) := r]> h)
    /\ in_range r /\ Z.gcd (num r) (denom r) = 1 /\ denom r <> 0.
Proof.
  intros Hn Hd Hd0.
  destruct (simplified_spec n d Hn Hd Hd0)
    as (r & Hr & Hrn & Hrd & Hg & Hpos & Hval).
  exists r. rewrite construct_num_denom_run by done.
  unfold finish. rewrite Hr. split_and!; [done|done|done|].
  intros E. rewrite E, Z.gcd_0_r in Hg.
  destruct (decide (d = INT64_MIN /\ Z.odd n = true)) as [[-> Ho]|Hok].
  - (* the numerator is odd up to sign *) 
    assert (Z.abs (num r) = 1) as Hone by done.
    clear Hpos Hval. unfold simplified in Hr. cbn [num denom] in Hr.
    assert (gcd64 n INT64_MIN = 1) as Hg1.
    { unfold gcd64. rewrite Z.gcd_comm.
      assert (Z.gcd INT64_MIN n = 1) as ->; [|done].
      rewrite Z.gcd_comm. change INT64_MIN with (- 2 ^ 63).
      rewrite Z.gcd_opp_r, Z.gcd_comm. by apply odd_coprime_pow. }
    rewrite Hg1 in Hr. cbn [Z.eqb] in Hr. rewrite !Z.quot_1_r in Hr.
    rewrite (wrap_id n), (wrap_id INT64_MIN) in Hr by (done || by range).
    change (INT64_MIN <? 0) with true in Hr.
    destruct (n <? 0); cbn [xorb andb] in Hr; injection Hr as <-;
      cbn [denom] in E; done.
  - specialize (Hpos Hok). lia.
Qed.

Lemma construct_num_denom_returns_witness :
  exists r,
    construct_num_denom 1 INT64_MIN ∅
    = Ret (fresh (dom (∅ : heap))) (<[fresh (dom (∅ : heap)) := r]> ∅)
    /\ in_range r /\ Z.gcd (num r) (denom r) = 1 /\ denom r <> 0.
Proof.
  apply construct_num_denom_returns.
  - unfold int64, INT64_MIN, INT64_MAX. lia.
  - unfold int64, INT64_MIN, INT64_MAX. lia.
  - unfold INT64_MIN. lia.
Defined.

(** X3: constructing an object from the numerator and the denominator
    of an object that satisfies the invariant gives the same fields:
    normalization changes nothing the second time. *)
Theorem construct_num_denom_idempotent (this : loc) (r : rational) (h : heap) :
  h !! this = Some r -> valid r ->
  (n <- numerator this ;; d <- denominator this ;; construct_num_denom n d) h
  = Ret (fresh (dom h)) (<[fresh (dom h) := r]> h).
Proof.
  intros Hr Hv. destruct (valid_pos r Hv) as [Hpos _].
  unfold numerator, denominator. unfold bind at 1.
  destruct (accessors_run this r h Hr) as [En Ed].
  unfold numerator in En. rewrite En.
  unfold bind at 1. unfold denominator in Ed. rewrite Ed.
  rewrite construct_num_denom_run by lia.
  destruct r as [n d]. by apply finish_idempotent.
Qed.

Lemma construct_num_denom_idempotent_witness :
  let h : heap := <[0%nat := mk_rational (-2) 3]> ∅ in
  (n <- numerator 0%nat ;; d <- denominator 0%nat ;; construct_num_denom n d) h
  = Ret (fresh (dom h)) (<[fresh (dom h) := mk_rational (-2) 3]> h).
Proof.
  intros h. apply construct_num_denom_idempotent; [reflexivity|].
  repeat split; cbn; unfold INT64_MIN, INT64_MAX; lia.
Defined.

(** ** Division by zero inside [simplify] *)

Lemma gcd64_zero (n d : Z) :
  int64 n -> int64 d -> gcd64 n d = 0 <-> n = 0 /\ d = 0.
Proof.
  intros Hn Hd. unfold gcd64. split.
  - intros E.
    destruct (decide (d = 0)) as [->|Hd0].
    + rewrite Z.gcd_0_r in E. split; [|done].
      destruct (decide (n = INT64_MIN)) as [->|Hm]; [done|].
      rewrite wrap_id in E by (range; lia). lia.
    + exfalso. destruct (gcd_factor n d Hd0) as (n' & d' & Hg & En & Ed & _).
      assert (Z.gcd n d <= 2 ^ 63).
      { assert (d' <= -1 \/ d' = 0 \/ 1 <= d') as [?|[?|?]] by lia;
          range; nia. }
      destruct (decide (Z.gcd n d = 2 ^ 63)) as [Eg|Hg'].
      * rewrite Eg in E. done.
      * rewrite wrap_id in E by (range; lia). lia.
  - intros [-> ->]. done.
Qed.

Lemma finish_cases (this : loc) (r : rational) (h : heap) :
  in_range r ->
  (num r = 0 /\ denom r = 0 /\ finish this r h = Fault (<[this := r]> h))
  \/ (~ (num r = 0 /\ denom r = 0)
      /\ exists r', finish this r h = Ret this (<[this := r']> h)).
Proof.
  intros [Hn Hd]. unfold finish, simplified.
  destruct (Z.eqb_spec (gcd64 (num r) (denom r)) 0) as [E|E].
  - left. apply gcd64_zero in E; [|done..]. tauto.
  - right. rewrite gcd64_zero in E by done. eauto.
Qed.

Lemma finish_fault_iff (this : loc) (r : rational) (h : heap) :
  in_range r ->
  (is_fault (finish this r h) <-> num r = 0 /\ denom r = 0)
  /\ (is_ret (finish this r h) <-> ~ (num r = 0 /\ denom r = 0)).
Proof.
  intros Hr.
  destruct (finish_cases this r h Hr) as [(? & ? & ->)|(? & r' & ->)];
    cbn; tauto.
Qed.

(** X4: [a += b], [a -= b], [a *= b] and, for a non-zero divisor in
    another object, [a /= b] stop at an integer division by zero inside
    [simplify] exactly when the numerator and the denominator they have
    computed are both 0 (modulo 2^64); [+=], [-=] and [*=] otherwise
    return. *)
Theorem compound_division_by_zero (this other : loc) (a b : rational) (h : heap) :
  h !! this = Some a -> h !! other = Some b ->
  (is_fault (op_add_assign this other h) <->
     add64 (mul64 (num a) (denom b)) (mul64 (denom a) (num b)) = 0
     /\ mul64 (denom a) (denom b) = 0)
  /\ (is_fault (op_subtract_assign this other h) <->
        sub64 (mul64 (num a) (denom b)) (mul64 (denom a) (num b)) = 0
        /\ mul64 (denom a) (denom b) = 0)
  /\ (is_fault (op_multiply_assign this other h) <->
        mul64 (num a) (num b) = 0 /\ mul64 (denom a) (denom b) = 0)
  /\ (this <> other -> num b <> 0 ->
      is_fault (op_divide_assign this other h) <->
        mul64 (num a) (denom b) = 0 /\ mul64 (denom a) (num b) = 0)
  /\ (~ is_fault (op_add_assign this other h) ->
      is_ret (op_add_assign this other h))
  /\ (~ is_fault (op_subtract_assign this other h) ->
      is_ret (op_subtract_assign this other h))
  /\ (~ is_fault (op_multiply_assign this other h) ->
      is_ret (op_multiply_assign this other h)).
Proof.
  intros Ha Hb.
  assert (forall x y, in_range (mk_rational (wrap x) (wrap y))) as Hrange
    by (intros; split; apply wrap_int64).
  rewrite (op_add_assign_run _ _ a b), (op_subtract_assign_run _ _ a b),
    (op_multiply_assign_run _ _ a b) by done.
  split_and!.
  - apply (finish_fault_iff this (sum_fields a b) h), Hrange.
  - apply (finish_fault_iff this (difference_fields a b) h), Hrange.
  - apply (finish_fault_iff this (product_fields a b) h), Hrange.
  - intros Hne Hz. rewrite (op_divide_assign_run _ _ a b) by done.
    apply (finish_fault_iff this (quotient_fields a b) h), Hrange.
  - destruct (finish_cases this (sum_fields a b) h) as [(_ & _ & ->)|(_ & r' & ->)];
      cbn; [apply Hrange|tauto..].
  - destruct (finish_cases this (difference_fields a b) h)
      as [(_ & _ & ->)|(_ & r' & ->)]; cbn; [apply Hrange|tauto..].
  - destruct (finish_cases this (product_fields a b) h)
      as [(_ & _ & ->)|(_ & r' & ->)]; cbn; [apply Hrange|tauto..].
Qed.

Lemma compound_division_by_zero_witness :
  let a := mk_rational 1 (2 ^ 32) in
  let b := mk_rational (2 ^ 32 - 1) (2 ^ 32) in
  let h : heap := <[0%nat := a]> (<[1%nat := b]> ∅) in
  valid a /\ valid b /\ is_fault (op_add_assign 0%nat 1%nat h).
Proof.
  intros a b h.
  split; [repeat split; cbn; unfold INT64_MIN, INT64_MAX; lia|].
  split; [repeat split; cbn; unfold INT64_MIN, INT64_MAX; lia|].
  destruct (compound_division_by_zero 0%nat 1%nat a b h eq_refl eq_refl)
    as (Hadd & _).
  apply Hadd. split; reflexivity.
Defined.

(** ** How the operators compose *)

Lemma finish_same (this : loc) (r : rational) (h : heap) :
  h !! this = Some r -> valid r -> finish this r h = Ret this h.
Proof.
  intros Hr Hv. rewrite finish_idempotent by done. by rewrite insert_id.
Qed.

(** X5: for an object [a] that satisfies the invariant, [a += 0/1],
    [a -= 0/1], [a *= 1/1] and [a /= 1/1] return and leave the store as it
    was, whatever the size of the fields of [a]. *)
Theorem neutral_elements (this other : loc) (a : rational) (h : heap) :
  h !! this = Some a -> valid a ->
  (h !! other = Some (mk_rational 0 1) ->
   op_add_assign this other h = Ret this h
   /\ op_subtract_assign this other h = Ret this h)
  /\ (h !! other = Some (mk_rational 1 1) ->
      op_multiply_assign this other h = Ret this h
      /\ op_divide_assign this other h = Ret this h).
Proof.
  intros Ha Hv. pose proof Hv as [[Hn Hd] _].
  assert (wrap (num a) = num a) as En by by apply wrap_id.
  assert (wrap (denom a) = denom a) as Ed by by apply wrap_id.
  split.
  - intros Hz.
    rewrite (op_add_assign_run _ _ a _ h Ha Hz),
      (op_subtract_assign_run _ _ a _ h Ha Hz).
    unfold sum_fields, difference_fields, add64, sub64, mul64; cbn [num denom].
    rewrite !Z.mul_1_r, Z.mul_0_r, En, Ed, Z.add_0_r, Z.sub_0_r, En.
    destruct a. split; by apply finish_same.
  - intros Ho.
    rewrite (op_multiply_assign_run _ _ a _ h Ha Ho).
    unfold product_fields, mul64; cbn [num denom].
    rewrite !Z.mul_1_r, En, Ed. destruct a as [n d].
    split; [by apply finish_same|].
    destruct (decide (this = other)) as [<-|Hne].
    + assert (n = 1 /\ d = 1) as [-> ->] by (split; congruence).
      rewrite (op_divide_assign_self_run _ _ h Ha) by done.
      by apply finish_same.
    + rewrite (op_divide_assign_run _ _ _ _ h Hne Ha Ho) by done.
      unfold quotient_fields, mul64; cbn [num denom] in *.
      rewrite !Z.mul_1_r, En, Ed. by apply finish_same.
Qed.

Lemma neutral_elements_witness :
  let h : heap :=
    <[0%nat := mk_rational (-5) 3]>
      (<[1%nat := mk_rational 0 1]> (<[2%nat := mk_rational 1 1]> ∅)) in
  (op_add_assign 0%nat 1%nat h = Ret 0%nat h
   /\ op_subtract_assign 0%nat 1%nat h = Ret 0%nat h)
  /\ (op_multiply_assign 0%nat 2%nat h = Ret 0%nat h
      /\ op_divide_assign 0%nat 2%nat h = Ret 0%nat h).
Proof.
  intros h.
  assert (valid (mk_rational (-5) 3)) as Hv
    by (repeat split; cbn; unfold INT64_MIN, INT64_MAX; lia).
  destruct (neutral_elements 0%nat 1%nat (mk_rational (-5) 3) h eq_refl Hv)
    as [Hzero _].
  destruct (neutral_elements 0%nat 2%nat (mk_rational (-5) 3) h eq_refl Hv)
    as [_ Hone].
  split; [apply Hzero|apply Hone]; reflexivity.
Defined.

(** X6: [a + b] and [b + a] have the same outcome, and so have
    [a * b] and [b * a], for all field values, also when the arithmetic
    wraps. *)
Theorem addition_multiplication_commute (l r : loc) (a b : rational) (h : heap) :
  h !! l = Some a -> h !! r = Some b ->
  op_add l r h = op_add r l h /\ op_multiply l r h = op_multiply r l h.
Proof.
  intros Ha Hb.
  rewrite (op_add_run l r a b), (op_add_run r l b a) by done.
  rewrite (op_multiply_run l r a b), (op_multiply_run r l b a) by done.
  assert (sum_fields b a = sum_fields a b) as ->.
  { unfold sum_fields, add64, mul64.
    rewrite (Z.mul_comm (num b)), (Z.mul_comm (denom b) (num a)),
      (Z.mul_comm (denom b) (denom a)).
    by rewrite (Z.add_comm (wrap (denom a * num b))). }
  assert (product_fields b a = product_fields a b) as ->.
  { unfold product_fields, mul64.
    by rewrite (Z.mul_comm (num b)), (Z.mul_comm (denom b)). }
  done.
Qed.

Lemma addition_multiplication_commute_witness :
  let h : heap := <[0%nat := mk_rational (-1) 2]> (<[1%nat := mk_rational 4 3]> ∅) in
  op_add 0%nat 1%nat h = op_add 1%nat 0%nat h
  /\ op_multiply 0%nat 1%nat h = op_multiply 1%nat 0%nat h.
Proof.
  intros h.
  apply (addition_multiplication_commute 0%nat 1%nat (mk_rational (-1) 2)
           (mk_rational 4 3)); reflexivity.
Defined.

Lemma simplified_to (n d n' d' : Z) :
  int64 n -> int64 d -> d <> 0 ->
  0 < d \/ (signed_fits n /\ signed_fits d) ->
  normalized (mk_rational n' d') -> n' * d = n * d' ->
  simplified (mk_rational n d) = Some (mk_rational n' d').
Proof.
  intros Hn Hd Hd0 Hs Hn' E.
  destruct (simplified_exact n d Hn Hd Hd0 Hs) as (r & -> & [_ Hr] & Hval).
  f_equal. apply valid_unique; [done..|]. cbn [num denom].
  apply (Z.mul_reg_r _ _ d); [done|].
  transitivity (n * denom r * d'); [rewrite <- Hval; ring|].
  rewrite <- (Z.mul_assoc n'), (Z.mul_comm (denom r)), Z.mul_assoc, E. ring.
Qed.

(** X7: for an object [a] that satisfies the invariant, with a non-zero
    numerator [n] and a denominator [d] such that [d * (n * d)] and its
    negation fit in 64 bits, [a /= a] leaves [1/d] in [a], while [a / a]
    returns [1/1]. *)
Theorem self_division (this : loc) (a : rational) (h : heap) :
  h !! this = Some a -> valid a -> num a <> 0 ->
  signed_fits (denom a * (num a * denom a)) ->
  op_divide_assign this this h
  = Ret this (<[this := mk_rational 1 (denom a)]> h)
  /\ op_divide this this h
     = Ret (fresh (dom h)) (<[fresh (dom h) := mk_rational 1 1]> h).
Proof.
  intros Ha Hv Hz [Hf Hf'].
  destruct (valid_pos a Hv) as [Hpos _].
  assert (signed_fits (num a * denom a)) as Hnd.
  { assert (num a <= -1 \/ 1 <= num a) as [?|?] by lia;
      split; range; nia. }
  assert (wrap (num a * denom a) = num a * denom a) as Ew
    by (apply wrap_id, Hnd).
  split.
  - rewrite (op_divide_assign_self_run _ a) by done.
    unfold self_quotient_fields, mul64, finish.
    rewrite Ew, (wrap_id (denom a * _)) by done.
    rewrite (simplified_to _ _ 1 (denom a)); [done|apply Hnd|done|nia| | |ring].
    + right. split; [done|]. split; done.
    + split; cbn [num denom]; [done|]. apply Z.gcd_1_l.
  - rewrite (op_divide_run _ _ a a) by done.
    unfold quotient_fields, mul64, finish.
    rewrite (Z.mul_comm (denom a) (num a)), Ew.
    rewrite (simplified_to _ _ 1 1); [done|apply Hnd|apply Hnd|nia| | |ring].
    + by right.
    + split; cbn [num denom]; [lia|]. reflexivity.
Qed.

Lemma self_division_witness :
  let h : heap := <[0%nat := mk_rational 2 3]> ∅ in
  op_divide_assign 0%nat 0%nat h = Ret 0%nat (<[0%nat := mk_rational 1 3]> h)
  /\ op_divide 0%nat 0%nat h
     = Ret (fresh (dom h)) (<[fresh (dom h) := mk_rational 1 1]> h).
Proof.
  intros h. apply (self_division 0%nat (mk_rational 2 3) h eq_refl).
  - repeat split; cbn; unfold INT64_MIN, INT64_MAX; lia.
  - cbn. lia.
  - cbn. unfold signed_fits, int64, INT64_MIN, INT64_MAX. lia.
Defined.

Lemma wrap_sub_add (n x : Z) : int64 n -> sub64 (add64 n x) x = n.
Proof.
  intros Hn. unfold sub64, add64.
  rewrite <- (wrap_id n) at 2 by done. apply wrap_of_divide.
  destruct (wrap_shift (n + x)) as [k ->]. exists k. lia.
Qed.

Lemma wrap_add_sub (n x : Z) : int64 n -> add64 (sub64 n x) x = n.
Proof.
  intros Hn. unfold sub64, add64.
  rewrite <- (wrap_id n) at 2 by done. apply wrap_of_divide.
  destruct (wrap_shift (n - x)) as [k ->]. exists k. lia.
Qed.

(** X8: [++a] followed by [--a], and [--a] followed by [++a], return
    with the store as it was, for every object with a 64-bit numerator, also
    when the first step wraps. *)
Theorem increment_decrement_round_trip (this : loc) (a : rational) (h : heap) :
  h !! this = Some a -> int64 (num a) ->
  (op_pre_increment this ;;; op_pre_decrement this) h = Ret this h
  /\ (op_pre_decrement this ;;; op_pre_increment this) h = Ret this h.
Proof.
  intros Ha Hn. split.
  - unfold bind. rewrite (op_pre_increment_run _ a) by done.
    rewrite (op_pre_decrement_run _ _ _ (lookup_insert_eq _ _ _)).
    cbn [num denom]. rewrite wrap_sub_add, insert_insert_eq by done.
    destruct a. by rewrite insert_id.
  - unfold bind. rewrite (op_pre_decrement_run _ a) by done.
    rewrite (op_pre_increment_run _ _ _ (lookup_insert_eq _ _ _)).
    cbn [num denom]. rewrite wrap_add_sub, insert_insert_eq by done.
    destruct a. by rewrite insert_id.
Qed.

Lemma increment_decrement_round_trip_witness :
  let h : heap := <[0%nat := mk_rational INT64_MAX 3]> ∅ in
  (op_pre_increment 0%nat ;;; op_pre_decrement 0%nat) h = Ret 0%nat h
  /\ (op_pre_decrement 0%nat ;;; op_pre_increment 0%nat) h = Ret 0%nat h.
Proof.
  intros h.
  apply (increment_decrement_round_trip 0%nat (mk_rational INT64_MAX 3) h eq_refl).
  cbn. unfold int64, INT64_MIN, INT64_MAX. lia.
Defined.

(** X9: for an object [a] that satisfies the invariant, [++a] has the
    outcome of [a += 1/1] when numerator + denominator fits in 64 bits, and
    [--a] the outcome of [a -= 1/1] when numerator - denominator fits. *)
Theorem increment_is_adding_one (this one : loc) (a : rational) (h : heap) :
  h !! this = Some a -> h !! one = Some (mk_rational 1 1) -> valid a ->
  (int64 (num a + denom a) ->
   op_pre_increment this h = op_add_assign this one h)
  /\ (int64 (num a - denom a) ->
      op_pre_decrement this h = op_subtract_assign this one h).
Proof.
  intros Ha Ho Hv. pose proof Hv as [[Hn Hd] _].
  split; intros Hfit.
  - destruct (increment_valid a Hv Hfit) as [E Hv'].
    rewrite (op_pre_increment_run _ a), E by done.
    rewrite (op_add_assign_run _ _ a _ h Ha Ho).
    unfold sum_fields, add64, mul64; cbn [num denom].
    rewrite !Z.mul_1_r, !wrap_id by (rewrite ?wrap_id; done).
    by rewrite finish_idempotent.
  - destruct (decrement_valid a Hv Hfit) as [E Hv'].
    rewrite (op_pre_decrement_run _ a), E by done.
    rewrite (op_subtract_assign_run _ _ a _ h Ha Ho).
    unfold difference_fields, sub64, mul64; cbn [num denom].
    rewrite !Z.mul_1_r, !wrap_id by (rewrite ?wrap_id; done).
    by rewrite finish_idempotent.
Qed.

Lemma increment_is_adding_one_witness :
  let h : heap := <[0%nat := mk_rational (-4) 7]> (<[1%nat := mk_rational 1 1]> ∅) in
  op_pre_increment 0%nat h = op_add_assign 0%nat 1%nat h
  /\ op_pre_decrement 0%nat h = op_subtract_assign 0%nat 1%nat h.
Proof.
  intros h.
  assert (valid (mk_rational (-4) 7)) as Hv
    by (repeat split; cbn; unfold INT64_MIN, INT64_MAX; lia).
  destruct (increment_is_adding_one 0%nat 1%nat (mk_rational (-4) 7) h
              eq_refl eq_refl Hv) as [Hinc Hdec].
  split; [apply Hinc|apply Hdec]; cbn; unfold int64, INT64_MIN, INT64_MAX; lia.
Defined.

(** X10: [a = b] returns [a], leaves in [a] the fields of [b] and every
    other object as it was; afterwards [a == b] is true; [a = a] changes
    nothing. *)
Theorem assignment_copies (this other : loc) (a b : rational) (h : heap) :
  h !! this = Some a -> h !! other = Some b ->
  exists h',
    op_assign this other h = Ret this h'
    /\ h' !! this = Some b
    /\ (forall q, q <> this -> h' !! q = h !! q)
    /\ value_of (compare op_equality this other h') = Some true
    /\ (this = other -> h' = h).
Proof.
  intros Ha Hb. exists (<[this := b]> h).
  rewrite (op_assign_run _ _ a b) by done.
  split_and!.
  - done.
  - apply lookup_insert_eq.
  - intros q Hq. by apply lookup_insert_ne.
  - unfold compare. destruct (decide (this = other)) as [->|Hne].
    + run. cbn [value_of]. by rewrite op_equality_refl.
    + run. cbn [value_of]. by rewrite op_equality_refl.
  - intros ->. apply insert_id. congruence.
Qed.

Lemma assignment_copies_witness :
  let h : heap := <[0%nat := mk_rational (-10) 1]> (<[1%nat := mk_rational 5 6]> ∅) in
  exists h',
    op_assign 0%nat 1%nat h = Ret 0%nat h'
    /\ h' !! 0%nat = Some (mk_rational 5 6)
    /\ (forall q, q <> 0%nat -> h' !! q = h !! q)
    /\ value_of (compare op_equality 0%nat 1%nat h') = Some true
    /\ (0%nat = 1%nat -> h' = h).
Proof.
  intros h.
  apply (assignment_copies 0%nat 1%nat (mk_rational (-10) 1) (mk_rational 5 6));
    reflexivity.
Defined.

Lemma neg64_neg64 (n : Z) : int64 n -> neg64 (neg64 n) = n.
Proof.
  intros Hn. destruct (decide (n = INT64_MIN)) as [->|Hm]; [done|].
  rewrite (neg64_opp n) by done. rewrite neg64_opp; [lia| |]; range; lia.
Qed.

Lemma negated_valid (a : rational) :
  valid a -> valid (mk_rational (neg64 (num a)) (denom a)).
Proof.
  intros [[Hn Hd] [Hpos Hg]]. split; [split; [apply wrap_int64|done]|].
  split; [done|]. cbn [num denom].
  destruct (decide (num a = INT64_MIN)) as [E|Hm].
  - by rewrite E, neg64_MIN, <- E.
  - by rewrite neg64_opp, Z.abs_opp.
Qed.

Lemma op_negative_valid_run (this : loc) (a : rational) (h : heap) :
  h !! this = Some a -> valid a ->
  op_negative this h
  = Ret (fresh (dom h))
      (<[fresh (dom h) := mk_rational (neg64 (num a)) (denom a)]> h).
Proof.
  intros Ha Hv. destruct (valid_pos a Hv) as [Hpos _].
  rewrite (op_negative_run _ a) by done.
  rewrite construct_num_denom_run by lia.
  by apply finish_idempotent, negated_valid.
Qed.

(** X15: for an object [a] that satisfies the invariant, [-(-a)] is a new
    object with the fields of [a] ([INT64_MIN] included), and [a] keeps its
    fields. *)
Theorem double_negation (this : loc) (a : rational) (h : heap) :
  h !! this = Some a -> valid a ->
  exists p h',
    (m <- op_negative this ;; op_negative m) h = Ret p h'
    /\ h' !! p = Some a /\ h' !! this = Some a.
Proof.
  intros Ha Hv. pose proof Hv as [[Hn _] _].
  unfold bind. rewrite (op_negative_valid_run _ a) by done.
  set (p := fresh (dom h)). set (b := mk_rational (neg64 (num a)) (denom a)).
  assert (p <> this) as Hne by by eapply fresh_ne.
  rewrite (op_negative_valid_run p b);
    [|apply lookup_insert_eq|by apply negated_valid].
  eexists _, _. split; [reflexivity|]. split.
  - rewrite lookup_insert_eq. unfold b; cbn [num denom].
    rewrite neg64_neg64 by done. by destruct a.
  - rewrite lookup_insert_ne.
    + by rewrite lookup_insert_ne.
    + intros E. 
      pose proof (fresh_lookup (<[p := b]> h)) as Hf.
      rewrite E, lookup_insert_ne, Ha in Hf by done. done.
Qed.

Lemma double_negation_witness :
  let h : heap := <[0%nat := mk_rational INT64_MIN 1]> ∅ in
  exists p h',
    (m <- op_negative 0%nat ;; op_negative m) h = Ret p h'
    /\ h' !! p = Some (mk_rational INT64_MIN 1)
    /\ h' !! 0%nat = Some (mk_rational INT64_MIN 1).
Proof.
  intros h. apply (double_negation 0%nat (mk_rational INT64_MIN 1) h eq_refl).
  repeat split; cbn; unfold INT64_MIN, INT64_MAX; lia.
Defined.

(** ** The comparison operators and the order of the values *)

Lemma op_equality_exact (a b : rational) :
  valid a -> valid b ->
  int64 (num a * denom b) -> int64 (denom a * num b) ->
  op_equality a b = true <-> num a * denom b = denom a * num b.
Proof.
  intros Hva Hvb HX HY.
  destruct (valid_pos a Hva) as [Hda _], (valid_pos b Hvb) as [Hdb _].
  unfold op_equality, mul64. cbv zeta. rewrite !wrap_id by done.
  assert ((denom a <? 0) = false) as -> by lia.
  assert ((denom b <? 0) = false) as -> by lia.
  rewrite !xorb_false_r.
  destruct (Z.ltb_spec (num a) 0), (Z.ltb_spec (num b) 0);
    cbn [Bool.eqb negb]; rewrite ?Z.eqb_eq; split; try done; try nia.
  - intros E. apply abs64_eq_same_sign in E; [done..|nia].
  - by intros ->.
  - intros E. apply abs64_eq_same_sign in E; [done..|nia].
  - by intros ->.
Qed.

(** X11: for [a] and [b] that satisfy the invariant and whose two
    cross products fit in 64 bits together with their negations, the six
    comparison operators decide the order of the two values: [==] is
    equality, [!=] its negation, [<], [<=], [>], [>=] the four
    inequalities. *)
Theorem comparisons_decide_order (a b : rational) :
  valid a -> valid b ->
  signed_fits (num a * denom b) -> signed_fits (denom a * num b) ->
  (op_equality a b = true <-> Qvalue a == Qvalue b)
  /\ (op_inequality a b = true <-> ~ Qvalue a == Qvalue b)
  /\ (op_less a b = true <-> (Qvalue a < Qvalue b)%Q)
  /\ (op_less_equal a b = true <-> (Qvalue a <= Qvalue b)%Q)
  /\ (op_greater a b = true <-> (Qvalue b < Qvalue a)%Q)
  /\ (op_greater_equal a b = true <-> (Qvalue b <= Qvalue a)%Q).
Proof.
  intros Hva Hvb HX HY.
  destruct (valid_pos a Hva) as [Hda _], (valid_pos b Hvb) as [Hdb _].
  assert (signed_fits (num b * denom a)) as HY' by by rewrite Z.mul_comm.
  assert (signed_fits (denom b * num a)) as HX' by by rewrite Z.mul_comm.
  pose proof (op_equality_exact a b Hva Hvb (proj1 HX) (proj1 HY)) as Heq.
  pose proof (op_less_exact a b Hva Hvb HX HY) as Hlt.
  pose proof (op_less_exact b a Hvb Hva HY' HX') as Hgt.
  unfold op_inequality, op_less_equal, op_greater_equal, op_greater.
  unfold Qvalue, Qeq, Qlt, Qle; cbn [Qnum Qden].
  rewrite !Z2Pos.id by done.
  destruct (op_equality a b), (op_less a b), (op_less b a); cbn [negb];
    split_and!; split; intros; try done; try lia;
    try (exfalso; intuition lia).
Qed.

Lemma comparisons_decide_order_witness :
  let a := mk_rational (-8) 3 in
  let b := mk_rational (-5) 2 in
  (op_equality a b = true <-> Qvalue a == Qvalue b)
  /\ (op_inequality a b = true <-> ~ Qvalue a == Qvalue b)
  /\ (op_less a b = true <-> (Qvalue a < Qvalue b)%Q)
  /\ (op_less_equal a b = true <-> (Qvalue a <= Qvalue b)%Q)
  /\ (op_greater a b = true <-> (Qvalue b < Qvalue a)%Q)
  /\ (op_greater_equal a b = true <-> (Qvalue b <= Qvalue a)%Q).
Proof.
  intros a b. apply comparisons_decide_order.
  - repeat split; cbn; unfold INT64_MIN, INT64_MAX; lia.
  - repeat split; cbn; unfold INT64_MIN, INT64_MAX; lia.
  - cbn. unfold signed_fits, int64, INT64_MIN, INT64_MAX. lia.
  - cbn. unfold signed_fits, int64, INT64_MIN, INT64_MAX. lia.
Defined.

Lemma op_less_transitive_witness :
  op_less (mk_rational (-8) 3) (mk_rational 1 7) = true.
Proof.
  apply (op_less_transitive (mk_rational (-8) 3) (mk_rational (-5) 2)
           (mk_rational 1 7));
    try (repeat split; cbn; unfold INT64_MIN, INT64_MAX; lia);
    try (cbn; unfold signed_fits, int64, INT64_MIN, INT64_MAX; lia);
    reflexivity.
Defined.

(** X13: for all field values, [a <= b] is [a < b || a == b],
    [a >= b] is [a > b || a == b] and [a != b] is [a < b || a > b], also
    when the cross products wrap. *)
Theorem derived_comparisons (a b : rational) :
  op_less_equal a b = op_less a b || op_equality a b
  /\ op_greater_equal a b = op_greater a b || op_equality a b
  /\ op_inequality a b = op_less a b || op_greater a b.
Proof.
  unfold op_less_equal, op_greater_equal, op_inequality, op_greater.
  rewrite (op_less_swap a b). unfold op_less, op_equality.
  cbv zeta. rewrite !Z.gtb_ltb.
  destruct (xorb (num a <? 0) (denom a <? 0)),
           (xorb (num b <? 0) (denom b <? 0)); cbn [Bool.eqb negb]; auto;
    destruct (Z.ltb_spec (abs64 (mul64 (num a) (denom b)))
                         (abs64 (mul64 (denom a) (num b)))),
             (Z.ltb_spec (abs64 (mul64 (denom a) (num b)))
                         (abs64 (mul64 (num a) (denom b)))),
             (Z.eqb_spec (abs64 (mul64 (num a) (denom b)))
                         (abs64 (mul64 (denom a) (num b))));
    try (exfalso; lia); cbn; auto.
Qed.

(** X14: an object with a negative numerator is below an object with
    a non-negative one (both denominators positive) for all six operators,
    whatever the size of the fields: the cross products are not
    consulted. *)
Theorem negative_below_nonnegative (a b : rational) :
  0 < denom a -> 0 < denom b -> num a < 0 -> 0 <= num b ->
  op_less a b = true /\ op_less_equal a b = true
  /\ op_greater a b = false /\ op_greater_equal a b = false
  /\ op_equality a b = false /\ op_inequality a b = true.
Proof.
  intros Hda Hdb Hna Hnb.
  unfold op_inequality, op_less_equal, op_greater_equal, op_greater,
    op_less, op_equality. cbv zeta.
  assert ((denom a <? 0) = false) as -> by lia.
  assert ((denom b <? 0) = false) as -> by lia.
  assert ((num a <? 0) = true) as -> by lia.
  assert ((num b <? 0) = false) as -> by lia.
  done.
Qed.

Lemma negative_below_nonnegative_witness :
  let a := mk_rational (- 2 ^ 40) (2 ^ 40 + 1) in
  let b := mk_rational (2 ^ 40) (2 ^ 40 + 1) in
  op_less a b = true /\ op_less_equal a b = true
  /\ op_greater a b = false /\ op_greater_equal a b = false
  /\ op_equality a b = false /\ op_inequality a b = true.
Proof.
  intros a b. apply negative_below_nonnegative; cbn; lia.
Defined.

(** ** Stream output: the text determines the fields *)









(** ** The series of [main] *)

Lemma shl_int_one (n : Z) : 0 <= n <= 30 -> shl_int 1 n = 2 ^ n.
Proof.
  intros Hn. unfold shl_int. rewrite (Z.mod_small n) by lia.
  rewrite Z.shiftl_1_l.
  assert (0 < 2 ^ n) by (apply Z.pow_pos_nonneg; lia).
  assert (2 ^ n <= 2 ^ 30) by (apply Z.pow_le_mono_r; lia).
  rewrite Z.mod_small; lia.
Qed.

Lemma zeno_step_run (zeno : loc) (base P : Z) (h : heap) :
  1 <= P <= 2 ^ 29 -> shl_int 1 base = 2 * P ->
  zeno_step zeno base (<[zeno := mk_rational (P - 1) P]> h)
  = Ret tt (<[zeno := mk_rational (2 * P - 1) (2 * P)]> h).
Proof.
  intros HP Hshift. unfold zeno_step. rewrite Hshift.
  set (a := mk_rational (P - 1) P). set (b := mk_rational 1 (2 * P)).
  set (h1 := <[zeno := a]> h).
  assert (h1 !! zeno = Some a) as Ha by apply lookup_insert_eq.
  assert (fresh (dom h1) <> zeno) as Hne by by eapply fresh_ne.
  assert (valid b) as Hb.
  { split; [split; cbn; range; lia|]. split; cbn; [lia|apply Z.gcd_1_l]. }
  unfold bind at 1. rewrite construct_num_denom_run by lia.
  rewrite (finish_idempotent _ b) by done.
  unfold bind at 1.
  rewrite (op_add_assign_run _ _ a b);
    [|by rewrite lookup_insert_ne|apply lookup_insert_eq].
  rewrite sum_fields_exact by (cbn; range; nia).
  unfold finish. cbn [num denom a b].
  rewrite (simplified_to _ _ (2 * P - 1) (2 * P));
    [|range; nia|range; nia|nia|left; nia| |ring].
  - unfold free. f_equal.
    rewrite delete_insert_ne by done.
    rewrite delete_insert_id by apply fresh_lookup.
    unfold h1. apply insert_insert_eq.
  - split; cbn [num denom]; [lia|].
    rewrite Z.gcd_abs_l.
    replace (2 * P) with (1 + (2 * P - 1)) at 2 by lia.
    rewrite Z.gcd_add_diag_r. apply Z.gcd_1_r.
Qed.

Lemma zeno_loop_run (zeno : loc) (count : nat) (base : Z) (h : heap) :
  1 <= base -> base - 1 + Z.of_nat count <= 30 ->
  zeno_loop zeno base count
    (<[zeno := mk_rational (2 ^ (base - 1) - 1) (2 ^ (base - 1))]> h)
  = Ret tt
      (<[zeno := mk_rational (2 ^ (base - 1 + Z.of_nat count) - 1)
                             (2 ^ (base - 1 + Z.of_nat count))]> h).
Proof.
  revert base. induction count as [|count IH]; intros base Hb Hc.
  - cbn [zeno_loop]. by rewrite Z.add_0_r.
  - cbn [zeno_loop]. unfold bind.
    assert (2 ^ base = 2 * 2 ^ (base - 1)) as Epow.
    { rewrite <- Z.pow_succ_r by lia. f_equal. lia. }
    rewrite zeno_step_run.
    + rewrite <- Epow.
      assert (add64 base 1 = base + 1) as -> by (apply wrap_id; range; lia).
      specialize (IH (base + 1)).
      replace (base + 1 - 1) with base in IH by lia.
      rewrite IH by lia.
      replace (base + Z.of_nat count) with (base - 1 + Z.of_nat (S count))
        by lia.
      done.
    + assert (0 < 2 ^ (base - 1)) by (apply Z.pow_pos_nonneg; lia).
      split; [lia|apply Z.pow_le_mono_r; lia].
    + rewrite shl_int_one by lia. done.
Qed.

(** X17: the second loop of [main], run up to any [limit] between 1 and
    31 (20 in [main]), leaves [(2^(limit-1) - 1) / 2^(limit-1)], that is
    1 - 1/2^(limit-1), in [zeno], and no temporary in the store. *)
Theorem zeno_partial_sums (limit : Z) (h : heap) :
  1 <= limit <= 31 ->
  let sum := mk_rational (2 ^ (limit - 1) - 1) (2 ^ (limit - 1)) in
  zeno_paradox limit h = Ret sum (<[fresh (dom h) := sum]> h)
  /\ Qvalue sum == 1 - 1 / inject_Z (2 ^ (limit - 1)).
Proof.
  intros Hl sum. split.
  - unfold zeno_paradox. unfold bind at 1. rewrite construct_integer_run.
    unfold bind.
    change (mk_rational 0 1) with (mk_rational (2 ^ (1 - 1) - 1) (2 ^ (1 - 1))).
    rewrite zeno_loop_run by lia.
    rewrite Z2Nat.id by lia.
    replace (1 - 1 + (limit - 1)) with (limit - 1) by lia.
    unfold load. by rewrite lookup_insert_eq.
  - assert (0 < 2 ^ (limit - 1)) as Hpos by (apply Z.pow_pos_nonneg; lia).
    set (D := 2 ^ (limit - 1)) in *. unfold sum, Qvalue; cbn [num denom].
    assert (~ inject_Z D == 0) as HD
      by (unfold Qeq, inject_Z; cbn [Qnum Qden]; lia).
    rewrite <- (Qvalue_of_pair (mk_rational 1 D) 1 D); [|done|lia|done].
    unfold Qvalue, Qeq, Qminus, Qplus, Qopp; cbn [Qnum Qden num denom].
    rewrite Pos2Z.inj_mul, Z2Pos.id by done. lia.
Qed.

Lemma zeno_partial_sums_witness :
  zeno_paradox 20 ∅
  = Ret (mk_rational 524287 524288)
        (<[fresh (dom (∅ : heap)) := mk_rational 524287 524288]> ∅)
  /\ Qvalue (mk_rational 524287 524288) == 1 - 1 / inject_Z (2 ^ 19).
Proof. apply (zeno_partial_sums 20 ∅). lia. Defined.

Lemma euler_loop_run (approx_e : loc) (count : nat) (a r : rational)
      (denom fac : Z) (h : heap) :
  euler_fields a denom fac count = Some r ->
  euler_loop approx_e denom fac count (<[approx_e := a]> h)
  = Ret tt (<[approx_e := r]> h).
Proof.
  revert a denom fac. induction count as [|count IH]; intros a denom fac.
  - cbn. by intros [= ->].
  - cbn [euler_fields euler_loop]. cbv zeta.
    destruct (Z.eqb_spec (mul64 fac denom) 0) as [|Hz]; [done|].
    destruct (simplified (mk_rational 1 _)) as [term|] eqn:Hterm; [|done].
    destruct (simplified (sum_fields a term)) as [a'|] eqn:Hsum; [|done].
    intros Hrest. unfold bind at 1. unfold euler_step.
    set (h1 := <[approx_e := a]> h).
    assert (h1 !! approx_e = Some a) as Ha by apply lookup_insert_eq.
    assert (fresh (dom h1) <> approx_e) as Hne by by eapply fresh_ne.
    unfold bind at 1. rewrite construct_num_denom_run by done.
    unfold finish at 1. rewrite Hterm.
    unfold bind at 1.
    rewrite (op_add_assign_run _ _ a term);
      [|by rewrite lookup_insert_ne|apply lookup_insert_eq].
    unfold finish. rewrite Hsum. unfold free.
    rewrite delete_insert_ne by done.
    rewrite delete_insert_id by apply fresh_lookup.
    unfold h1. rewrite insert_insert_eq. by apply IH.
Qed.

(** X18: the first loop of [main], run up to any [limit] between 1 and
    14 (12 in [main]), leaves in [approx_e] the exact sum
    1 + 1/1! + ... + 1/(limit-1)! in lowest terms, and no temporary in the
    store; run up to 15 it leaves another number. *)
Theorem euler_partial_sums (limit : Z) (h : heap) :
  1 <= limit <= 14 ->
  (exists sum,
     euler_constant limit h = Ret sum (<[fresh (dom h) := sum]> h)
     /\ valid sum
     /\ Qvalue sum == partial_sum_e (Z.to_nat (limit - 1)))
  /\ (exists sum,
        euler_constant 15 h = Ret sum (<[fresh (dom h) := sum]> h)
        /\ ~ Qvalue sum == partial_sum_e 14).
Proof.
  intros Hl. split.
  2:{ eexists. split.
      - unfold euler_constant. unfold bind at 1. rewrite construct_integer_run.
        unfold bind. erewrite euler_loop_run by (vm_compute; reflexivity).
        unfold load. by rewrite lookup_insert_eq.
      - vm_compute. discriminate. }
  assert (exists sum,
             euler_fields (mk_rational 1 1) 1 1 (Z.to_nat (limit - 1))
             = Some sum
             /\ (int64 (num sum) /\ int64 (denom sum))
             /\ 0 < denom sum
             /\ Z.gcd (Z.abs (num sum)) (denom sum) = 1
             /\ Qvalue sum == partial_sum_e (Z.to_nat (limit - 1)))
    as (sum & Hrun & Hrange & Hpos & Hg & Hq).
  { assert (limit = 1 \/ limit = 2 \/ limit = 3 \/ limit = 4 \/ limit = 5
            \/ limit = 6 \/ limit = 7 \/ limit = 8 \/ limit = 9
            \/ limit = 10 \/ limit = 11 \/ limit = 12 \/ limit = 13
            \/ limit = 14) as Hcases by lia.
    repeat destruct Hcases as [->|Hcases]; [..|subst limit];
      (eexists; split; [vm_compute; reflexivity|];
       split; [split; vm_compute; split; discriminate|];
       split; [reflexivity|]; split; vm_compute; reflexivity). }
  exists sum. split_and!; [|done|done].
  unfold euler_constant. unfold bind at 1. rewrite construct_integer_run.
  unfold bind. rewrite (euler_loop_run _ _ _ sum) by done.
  unfold load. by rewrite lookup_insert_eq.
Qed.

Lemma euler_partial_sums_witness :
  exists sum,
    euler_constant 12 ∅ = Ret sum (<[fresh (dom (∅ : heap)) := sum]> ∅)
    /\ valid sum
    /\ Qvalue sum == partial_sum_e (Z.to_nat (12 - 1)).
Proof. destruct (euler_partial_sums 12 ∅) as [Hsum _]; [lia|exact Hsum]. Defined.

(** ** Subtracting an object from itself *)

Lemma simplified_zero (d : Z) :
  int64 d -> d <> 0 -> simplified (mk_rational 0 d) = Some (mk_rational 0 1).
Proof.
  intros Hd Hd0.
  destruct (simplified_spec 0 d) as (r & -> & _ & _ & Hg & Hpos & Hval);
    [by range|done|done|].
  f_equal. destruct r as [n' d']; cbn [num denom] in *.
  assert (n' = 0) as ->.
  { assert (n' * d = 0) by (apply Hval; [by intros [_ ?]|by intros [? _]]).
    nia. }
  assert (0 < d') by (apply Hpos; by intros [_ ?]).
  rewrite Z.gcd_0_l, Z.abs_eq in Hg by lia. by subst d'.
Qed.

(** X19: [a -= a] and [a - a] give [0/1] when the square of the
    denominator is not 0 modulo 2^64, and stop at an integer division by zero
    when it is. *)
Theorem self_subtraction (this : loc) (a : rational) (h : heap) :
  h !! this = Some a ->
  (mul64 (denom a) (denom a) <> 0 ->
   op_subtract_assign this this h = Ret this (<[this := mk_rational 0 1]> h)
   /\ op_subtract this this h
      = Ret (fresh (dom h)) (<[fresh (dom h) := mk_rational 0 1]> h))
  /\ (mul64 (denom a) (denom a) = 0 ->
      is_fault (op_subtract_assign this this h)
      /\ is_fault (op_subtract this this h)).
Proof.
  intros Ha.
  rewrite (op_subtract_assign_run _ _ a a), (op_subtract_run _ _ a a) by done.
  assert (difference_fields a a
          = mk_rational 0 (mul64 (denom a) (denom a))) as ->.
  { unfold difference_fields, sub64, mul64.
    by rewrite (Z.mul_comm (denom a) (num a)), Z.sub_diag. }
  unfold finish. split.
  - intros Hz. by rewrite simplified_zero by (apply wrap_int64 || done).
  - intros ->. done.
Qed.

Lemma self_subtraction_witness :
  let h : heap := <[0%nat := mk_rational 1 (2 ^ 32)]> ∅ in
  let h' : heap := <[0%nat := mk_rational (-5) 3]> ∅ in
  (is_fault (op_subtract_assign 0%nat 0%nat h)
   /\ is_fault (op_subtract 0%nat 0%nat h))
  /\ (op_subtract_assign 0%nat 0%nat h'
      = Ret 0%nat (<[0%nat := mk_rational 0 1]> h')
      /\ op_subtract 0%nat 0%nat h'
         = Ret (fresh (dom h')) (<[fresh (dom h') := mk_rational 0 1]> h')).
Proof.
  intros h h'. split.
  - apply (self_subtraction 0%nat (mk_rational 1 (2 ^ 32)) h eq_refl).
    reflexivity.
  - apply (self_subtraction 0%nat (mk_rational (-5) 3) h' eq_refl).
    vm_compute. discriminate.
Defined.

(** ** The member functions write to [*this] only *)

Lemma store_of_finish_other (p q : loc) (r : rational) (h : heap) :
  q <> p -> store_of (finish p r h) !! q = h !! q.
Proof.
  intros Hq. unfold finish.
  destruct (simplified r); cbn [store_of]; by rewrite lookup_insert_ne.
Qed.

(** X20: [=], [+=], [-=], [*=], [/=], [++] and [--] change no object
    other than [*this], whatever their outcome, and what they return is
    [*this]. *)
Theorem mutators_write_this_only (this other : loc) (a b : rational) (h : heap) :
  h !! this = Some a -> h !! other = Some b ->
  forall op,
    op ∈ [op_assign; op_add_assign; op_subtract_assign; op_multiply_assign;
          op_divide_assign; (fun this _ => op_pre_increment this);
          (fun this _ => op_pre_decrement this)] ->
    (forall q, q <> this -> store_of (op this other h) !! q = h !! q)
    /\ (forall result, value_of (op this other h) = Some result ->
          result = this).
Proof.
  intros Ha Hb op Hop.
  repeat (apply elem_of_cons in Hop as [->|Hop]).
  - rewrite (op_assign_run _ _ a b) by done. cbn. split.
    + intros q Hq. by rewrite lookup_insert_ne.
    + by intros ? [= <-].
  - rewrite (op_add_assign_run _ _ a b) by done. split.
    + intros q Hq. by apply store_of_finish_other.
    + unfold finish. destruct (simplified _); cbn; [by intros ? [= <-]|done].
  - rewrite (op_subtract_assign_run _ _ a b) by done. split.
    + intros q Hq. by apply store_of_finish_other.
    + unfold finish. destruct (simplified _); cbn; [by intros ? [= <-]|done].
  - rewrite (op_multiply_assign_run _ _ a b) by done. split.
    + intros q Hq. by apply store_of_finish_other.
    + unfold finish. destruct (simplified _); cbn; [by intros ? [= <-]|done].
  - destruct (decide (num b = 0)) as [Hz|Hz].
    { by rewrite (op_divide_assign_throw _ _ b). }
    destruct (decide (this = other)) as [<-|Hne].
    + assert (b = a) as -> by congruence.
      rewrite (op_divide_assign_self_run _ a) by done. split.
      * intros q Hq. by apply store_of_finish_other.
      * unfold finish. destruct (simplified _); cbn; [by intros ? [= <-]|done].
    + rewrite (op_divide_assign_run _ _ a b) by done. split.
      * intros q Hq. by apply store_of_finish_other.
      * unfold finish. destruct (simplified _); cbn; [by intros ? [= <-]|done].
  - rewrite (op_pre_increment_run _ a) by done. cbn. split.
    + intros q Hq. by rewrite lookup_insert_ne.
    + by intros ? [= <-].
  - rewrite (op_pre_decrement_run _ a) by done. cbn. split.
    + intros q Hq. by rewrite lookup_insert_ne.
    + by intros ? [= <-].
  - by apply elem_of_nil in Hop.
Qed.

Lemma mutators_write_this_only_witness :
  let h : heap := <[0%nat := mk_rational (-1) 2]> (<[1%nat := mk_rational 4 3]> ∅) in
  (forall q, q <> 0%nat ->
     store_of (op_divide_assign 0%nat 1%nat h) !! q = h !! q)
  /\ (forall result,
        value_of (op_divide_assign 0%nat 1%nat h) = Some result ->
        result = 0%nat).
Proof.
  intros h.
  apply (mutators_write_this_only 0%nat 1%nat (mk_rational (-1) 2)
           (mk_rational 4 3) h eq_refl eq_refl op_divide_assign).
  apply list_elem_of_In. cbn. tauto.
Defined.
